(** * The environment editor of dashboardv2: EnvState and its reconciliation

    A shallow embedding of [src/dashboardv2/src/EnvEditor.tsx]:
    the class [EnvState] (the "EditSession" of the specification), the
    handlers of [EnvEditor] that drive it, and the release callback of
    [WrappedEnvEditor._getData] (the "Reconciler").

    JavaScript objects that are shared by reference are kept in an explicit
    heap, so that the aliasing created by [Object.assign] in [dup] and
    [filtered] is part of the model. *)

From stdpp Require Import gmap strings list fin_maps.

Set Warnings "-clear-no-such-hyp".

Open Scope string_scope.
Open Scope nat_scope.
Open Scope list_scope.
Open Scope stdpp_scope.

(** ** Arrays with indices

    [Array.prototype.reduce], [filter] and [findIndex] hand the index of
    each element to their callback. *)

Fixpoint reduce_from {A B : Type} (f : B → A → nat → B) (i : nat) (l : list A) (acc : B) : B :=
  match l with
  | [] => acc
  | x :: l' => reduce_from f (S i) l' (f acc x i)
  end.

Definition reduce {A B : Type} (f : B → A → nat → B) (l : list A) (init : B) : B :=
  reduce_from f 0 l init.

Fixpoint filter_from {A : Type} (p : A → nat → bool) (i : nat) (l : list A) : list A :=
  match l with
  | [] => []
  | x :: l' => if p x i then x :: filter_from p (S i) l' else filter_from p (S i) l'
  end.

Definition filter_index {A : Type} (p : A → nat → bool) (l : list A) : list A :=
  filter_from p 0 l.

(** [findIndex] answers [-1] when no element matches: [None] here. *)
Fixpoint findIndex_from {A : Type} (p : A → bool) (i : nat) (l : list A) : option nat :=
  match l with
  | [] => None
  | x :: l' => if p x then Some i else findIndex_from p (S i) l'
  end.

Definition findIndex {A : Type} (p : A → bool) (l : list A) : option nat :=
  findIndex_from p 0 l.


(** [arr[index] = x] on a dense array, for an array index: in range it
    overwrites, at [arr.length] it appends, beyond it JavaScript extends
    the array and leaves holes ([None]) in between. For a number that is
    no array index JavaScript makes a plain property of the array instead
    and leaves its elements and its length alone, which this definition
    does not follow: it is the assignment at an [is_array_index]. *)
Definition array_set {A : Type} (arr : list A) (index : nat) (x : A) : list (option A) :=
  if decide (index < length arr) then Some <$> <[index := x]> arr
  else (Some <$> arr) ++ replicate (index - length arr) None ++ [Some x].

(** ** Plain objects used as dictionaries

    An assignment [obj[key] = value] makes an own property of [obj], except
    for the key ["__proto__"]: there it calls the setter inherited from
    [Object.prototype], which makes no own property (and ignores a number
    altogether). A key that is not an own property reads as [undefined] or
    as a member of [Object.prototype], neither of which is [> -1]: a
    lookup that finds nothing. *)

Definition obj_set {V : Type} (key : string) (value : V) (obj : gmap string V) : gmap string V :=
  if decide (key = "__proto__") then obj else <[key := value]> obj.

(** ** jspb.Map<string, string>

    [jspb.Map] is the map class of the google-protobuf runtime. The editor
    only builds maps from arrays and reads them back: [toArray] returns the
    array the map was built from, [getLength] counts the own keys of the
    map's internal string-keyed table (a repeated key counts once), and the
    constructor reads [record[0]] of every slot of its array, which throws
    a [TypeError] on a hole. *)

Abbreviation Entry := (string * string)%type.
Abbreviation Entries := (list Entry).

Definition toArray (m : Entries) : list Entry := m.

Definition getLength (m : Entries) : nat :=
  length (remove_dups (filter (λ key, key ≠ "__proto__") (m.*1))).

(** [new jspb.Map(arr)]; [None] is the [TypeError] of a hole. *)
Fixpoint new_Map (arr : list (option Entry)) : option Entries :=
  match arr with
  | [] => Some []
  | Some e :: arr' => cons e <$> new_Map arr'
  | None :: _ => None
  end.

(** [entriesEqual(a, b)]: [a && b && a[0] === b[0] && a[1] === b[1]], where
    a missing array element ([undefined]) is falsy. *)
Definition entriesEqual (a b : option Entry) : bool :=
  match a, b with
  | Some a, Some b => bool_decide (a.1 = b.1) && bool_decide (a.2 = b.2)
  | _, _ => false
  end.

(** ** Diffs *)

Inductive DiffOp : Type :=
  | Add (key value : string)
  | Remove (key : string).

Abbreviation Diff := (list DiffOp).

Definition op_key (op : DiffOp) : string :=
  match op with
  | Add key _ => key
  | Remove key => key
  end.

(** ** The heap of tracking objects

    [uniqueKeyMap], [deletedIndices] and [changedIndices] are three plain
    objects created together by the constructor of [EnvState]. The state
    object that holds the references to them is copied by
    [Object.assign({}, state)], which copies the three references and not
    the objects: one heap location stands for the three of them.
    [deletedIndices] and [changedIndices] only ever store [true], and
    entries are removed with [delete]: they are sets of indices. *)

Definition loc : Type := nat.

Record Tracking : Type := mkTracking {
  uniqueKeyMap : gmap string nat;
  deletedIndices : gset nat;
  changedIndices : gset nat
}.

Global Instance Tracking_inhabited : Inhabited Tracking :=
  populate (mkTracking ∅ ∅ ∅).

Abbreviation Heap := (gmap loc Tracking).

Definition set_uniqueKeyMap (m : gmap string nat) (tr : Tracking) : Tracking :=
  mkTracking m (deletedIndices tr) (changedIndices tr).
Definition set_deletedIndices (d : gset nat) (tr : Tracking) : Tracking :=
  mkTracking (uniqueKeyMap tr) d (changedIndices tr).
Definition set_changedIndices (c : gset nat) (tr : Tracking) : Tracking :=
  mkTracking (uniqueKeyMap tr) (deletedIndices tr) c.

(** How a method call ends: it returns, or an exception leaves it with the
    state as it was when the exception was thrown. *)
Inductive completion (A : Type) : Type :=
  | Normal (a : A)
  | Throw (a : A).
Arguments Normal {A} a.
Arguments Throw {A} a.

Definition and_then {A : Type} (c : completion A) (k : A → completion A) : completion A :=
  match c with
  | Normal a => k a
  | Throw a => Throw a
  end.

Notation "c >>> k" := (and_then c k) (at level 61, left associativity).

Fixpoint forEach {A S : Type} (f : A → S → completion S) (l : list A) (σ : S) : completion S :=
  match l with
  | [] => Normal σ
  | x :: l' => f x σ >>> forEach f l'
  end.

(** ** class EnvState *)

Module EnvState.

Record EnvStateInternalState : Type := mkInternal {
  originalEntries : Entries;
  tracking : loc;
  filterText : string
}.

(** [hasChanges] is declared and not initialised: it is [undefined]
    ([None]) until [_trackChanges] assigns it. *)
Record t : Type := mk {
  length : nat;
  deletedLength : nat;
  hasChanges : option bool;
  _entries : Entries;
  _state : EnvStateInternalState
}.

Definition set_length (n : nat) (this : t) : t :=
  mk n (deletedLength this) (hasChanges this) (_entries this) (_state this).
Definition set_deletedLength (n : nat) (this : t) : t :=
  mk (length this) n (hasChanges this) (_entries this) (_state this).
Definition set_hasChanges (b : option bool) (this : t) : t :=
  mk (length this) (deletedLength this) b (_entries this) (_state this).
Definition set_entries (m : Entries) (this : t) : t :=
  mk (length this) (deletedLength this) (hasChanges this) m (_state this).

(** The tracking objects [this._state] refers to. *)
Definition tracked (h : Heap) (this : t) : Tracking :=
  h !!! tracking (_state this).

Definition update_tracked (f : Tracking → Tracking) (h : Heap) (this : t) : Heap :=
  <[tracking (_state this) := f (tracked h this)]> h.

(** [_setDeletedLength] *)
Definition _setDeletedLength (σ : Heap * t) : Heap * t :=
  let '(h, this) := σ in
  (h, set_deletedLength (size (deletedIndices (tracked h this))) this).

(** The constructor, called with a state object. *)
Definition construct (entries : Entries) (state : EnvStateInternalState) (h : Heap) : Heap * t :=
  _setDeletedLength (h, mk (getLength entries) 0 None entries state).

(** The constructor, called without a state object: it builds the three
    tracking objects. *)
Definition new (entries : Entries) (h : Heap) : Heap * t :=
  let l := fresh (dom h) in
  let keys := reduce (λ (m : gmap string nat) (e : Entry) index, obj_set e.1 index m)
                     (toArray entries) ∅ in
  construct entries (mkInternal entries l "") (<[l := mkTracking keys ∅ ∅]> h).

(** [dup] and [filtered]: [Object.assign] makes a new state object that
    holds the same three references. *)
Definition dup (σ : Heap * t) : Heap * t :=
  let '(h, this) := σ in
  construct (_entries this) (_state this) h.

Definition filtered (text : string) (σ : Heap * t) : Heap * t :=
  let '(h, this) := σ in
  construct (_entries this)
    (mkInternal (originalEntries (_state this)) (tracking (_state this)) text) h.

Definition isDeleted (h : Heap) (this : t) (index : nat) : bool :=
  bool_decide (index ∈ deletedIndices (tracked h this)).

(** [entries] *)
Definition entries (h : Heap) (this : t) : Entries :=
  filter_index
    (λ (entry : Entry) index,
       negb (isDeleted h this index)
       && bool_decide (entry.1 ≠ "") && bool_decide (entry.2 ≠ ""))
    (toArray (_entries this)).

(** [map]; [fz] is the fuzzy matcher of the npm package of that name. *)
Definition map (fz : string → string → bool) {T : Type}
    (fn : Entry → nat → T) (h : Heap) (this : t) : list T :=
  let filterText := filterText (_state this) in
  reduce
    (λ (prev : list T) (entry : Entry) index,
       if isDeleted h this index then prev
       else if bool_decide (filterText ≠ "") && negb (fz entry.1 filterText) then prev
       else prev ++ [fn entry index])
    (toArray (_entries this)) []
  ++ [fn ("", "") (length this)].

(** [mapDeleted] *)
Definition mapDeleted {T : Type} (fn : Entry → nat → T) (h : Heap) (this : t) : list T :=
  reduce
    (λ (prev : list T) (entry : Entry) index,
       if negb (isDeleted h this index) then prev
       else prev ++ [fn entry index])
    (toArray (_entries this)) [].

(** [_trackChanges] *)
Definition _trackChanges (index : nat) (σ : Heap * t) : Heap * t :=
  let '(h, this) := σ in
  let tr := tracked h this in
  let original := originalEntries (_state this) in
  let changed :=
    if decide (index ∈ deletedIndices tr) then
      if decide (index < getLength original) then {[index]} ∪ changedIndices tr
      else changedIndices tr ∖ {[index]}
    else if entriesEqual (toArray original !! index) (toArray (_entries this) !! index)
      then changedIndices tr ∖ {[index]}
      else {[index]} ∪ changedIndices tr in
  (update_tracked (set_changedIndices changed) h this,
   set_hasChanges (Some (bool_decide (0 < size changed))) this).

(** [removeEntryAtIndex] *)
Definition removeEntryAtIndex (index : nat) (σ : Heap * t) : Heap * t :=
  let '(h, this) := σ in
  let h := update_tracked (λ tr, set_deletedIndices ({[index]} ∪ deletedIndices tr) tr) h this in
  _trackChanges index (_setDeletedLength (h, this)).

(** [setKeyAtIndex] *)
Definition setKeyAtIndex (index : nat) (key : string) (σ : Heap * t) : completion (Heap * t) :=
  let '(h, this) := σ in
  let h := update_tracked (λ tr, set_deletedIndices (deletedIndices tr ∖ {[index]}) tr) h this in
  let '(h, this) := _setDeletedLength (h, this) in
  let old := toArray (_entries this) in
  let entries := array_set old index (key, default "" (snd <$> old !! index)) in
  let this := set_length (List.length entries) this in
  match new_Map entries with
  | None => Throw (h, this)
  | Some m =>
      let '(h, this) := _trackChanges index (h, set_entries m this) in
      match uniqueKeyMap (tracked h this) !! key with
      | Some j =>
          if decide (j ≠ index ∧ index < List.length entries) then
            let '(h, this) := removeEntryAtIndex j (h, this) in
            Normal (update_tracked (λ tr, set_uniqueKeyMap (obj_set key index (uniqueKeyMap tr)) tr) h this,
                    this)
          else Normal (h, this)
      | None => Normal (h, this)
      end
  end.

(** [setValueAtIndex] *)
Definition setValueAtIndex (index : nat) (val : string) (σ : Heap * t) : completion (Heap * t) :=
  let '(h, this) := σ in
  let old := toArray (_entries this) in
  let key := default "" (fst <$> old !! index) in
  let entries := array_set old index (key, val) in
  let this := set_length (List.length entries) this in
  match new_Map entries with
  | None => Throw (h, this)
  | Some m =>
      let this := set_entries m this in
      if bool_decide (val = "") && bool_decide (key = "") then
        Normal (removeEntryAtIndex index (h, this))
      else Normal (_trackChanges index (h, this))
  end.

(** The body of the callback of [applyDiff], for one operation. *)
Definition applyOp (op : DiffOp) (σ : Heap * t) : completion (Heap * t) :=
  let arr := toArray (_entries σ.2) in
  let index := findIndex (λ e : Entry, bool_decide (e.1 = op_key op)) arr in
  match op with
  | Add key value =>
      if bool_decide (value ≠ "") then
        let index := default (List.length arr) index in
        setKeyAtIndex index key σ >>> setValueAtIndex index value
      else Normal σ
  | Remove key =>
      match index with
      | Some index => Normal (removeEntryAtIndex index σ)
      | None => Normal σ
      end
  end.

(** [applyDiff] *)
Definition applyDiff (diff : Diff) (σ : Heap * t) : completion (Heap * t) :=
  forEach applyOp diff σ.

End EnvState.

(** ** class EnvEditor: the handlers that drive an EnvState

    Each handler leaves [this.props.entries] as it is, works on a [dup] of
    it and hands the result to [onChange]. The result is what the handler
    returns here. *)

Module EnvEditor.

(** [_keyChangeHandler] *)
Definition _keyChangeHandler (index : nat) (key : string)
    (σ : Heap * EnvState.t) : completion (Heap * EnvState.t) :=
  let nextEntries := EnvState.dup σ in
  if bool_decide (0 < String.length key) then EnvState.setKeyAtIndex index key nextEntries
  else Normal (EnvState.removeEntryAtIndex index nextEntries).

(** [_valueChangeHandler] *)
Definition _valueChangeHandler (index : nat) (value : string)
    (σ : Heap * EnvState.t) : completion (Heap * EnvState.t) :=
  EnvState.setValueAtIndex index value (EnvState.dup σ).

(** [_searchInputHandler] *)
Definition _searchInputHandler (value : string) (σ : Heap * EnvState.t) : Heap * EnvState.t :=
  EnvState.filtered value σ.

End EnvEditor.

(** ** The diff engine

    [protoMapDiff] and [applyProtoMapDiff] are imported from
    [./util/protoMapDiff]; what they do is taken from the specification. *)

Module DiffEngine.

(** Modelled from the spec: [get] of an OrderedMap (section 4.1), the
    value of the last pair with that key. *)
Fixpoint get (key : string) (m : Entries) : option string :=
  match m with
  | [] => None
  | (k, v) :: m' =>
      match get key m' with
      | Some v' => Some v'
      | None => if decide (k = key) then Some v else None
      end
  end.

(** Modelled from the spec: [protoMapDiff] (section 4.2, [diff]). For
    every key present in [to] with a non-empty value but absent or
    differing in [from] it emits [Add key value], in the order of [to];
    for every key present in [from] but absent from [to], or present
    there with an empty value, it emits [Remove key], in the order of
    [from]. *)
Definition diff (from to : Entries) : Diff :=
  omap (λ e : Entry,
          if bool_decide (e.2 ≠ "") && negb (bool_decide (get e.1 from = Some e.2))
          then Some (Add e.1 e.2) else None) to
  ++ omap (λ e : Entry,
             match get e.1 to with
             | None | Some "" => Some (Remove e.1)
             | Some _ => None
             end) from.

(** Modelled from the spec: the upsert of [apply] (section 4.2): it
    overwrites the existing slot in place, and appends when the key is
    new. *)
Fixpoint upsert (key value : string) (m : Entries) : Entries :=
  match m with
  | [] => [(key, value)]
  | e :: m' => if decide (e.1 = key) then (key, value) :: m' else e :: upsert key value m'
  end.

(** Modelled from the spec: the removal of [apply] (section 4.2): it
    deletes the entry with that key, and does nothing when there is
    none. *)
Definition remove (key : string) (m : Entries) : Entries :=
  filter (λ e : Entry, e.1 ≠ key) m.

Definition step (m : Entries) (op : DiffOp) : Entries :=
  match op with
  | Add key value => upsert key value m
  | Remove key => remove key m
  end.

(** Modelled from the spec: [applyProtoMapDiff] (section 4.2, [apply]);
    it returns a new map and leaves [base] alone. *)
Definition apply (base : Entries) (d : Diff) : Entries :=
  fold_left step d base.

(** The pairs the round-trip property compares: those [entries()] keeps,
    with a key and a value that are both non-empty. *)
Definition nonEmpty (m : Entries) : Entries :=
  filter (λ e : Entry, e.1 ≠ "" ∧ e.2 ≠ "") m.

End DiffEngine.

(** ** class WrappedEnvEditor: the release callback of [_getData] *)

Module WrappedEnvEditor.

Record Release : Type := mkRelease {
  getName : string;
  getEnvMap : Entries
}.

Record WrappedState : Type := mkState {
  release : option Release;
  isLoading : bool;
  isDeploying : bool;
  envState : option EnvState.t
}.

(** The callback handed to [client.streamAppRelease]. [protoMapDiff] is
    the imported diff function; [error] tells whether the stream
    delivered an error, which goes to [handleError] and leaves the state
    alone. *)
Definition onRelease (protoMapDiff : Entries → Entries → Diff)
    (rel : Release) (error : bool) (σ : Heap * WrappedState) : completion (Heap * WrappedState) :=
  if error then Normal σ
  else
    let '(h, state) := σ in
    let fresh := EnvState.new (getEnvMap rel) h in
    let prevEnvState := envState state in
    let prevRelease := release state in
    let changed :=
      match prevRelease with
      | None => true
      | Some prev => bool_decide (getName prev ≠ getName rel)
      end in
    let result :=
      match prevEnvState with
      | Some prev =>
          if changed && bool_decide (EnvState.hasChanges prev = Some true) then
            let envDiff :=
              protoMapDiff
                (match prevRelease with Some p => getEnvMap p | None => [] end)
                (EnvState.entries fresh.1 prev) in
            if bool_decide (length envDiff ≠ 0) then EnvState.applyDiff envDiff fresh
            else Normal fresh
          else Normal fresh
      | None => Normal fresh
      end in
    match result with
    | Normal (h, envState) =>
        Normal (h, mkState (Some rel) false (isDeploying state) (Some envState))
    | Throw (h, _) => Throw (h, state)
    end.

End WrappedEnvEditor.

(** ** The reconciler of the specification *)

Module Reconciler.

(** The reconciler in the words of the specification (section 4.4):
    without a prior session, or with one whose [hasChanges] is not true,
    a fresh session of the new baseline; otherwise that fresh session
    with the diff of the previous baseline and the previous session's
    entries applied. *)
Definition reconcile (diff : Entries → Entries → Diff)
    (previousBaseline : Entries) (previousSession : option EnvState.t)
    (newBaseline : Entries) (h : Heap) : completion (Heap * EnvState.t) :=
  let fresh := EnvState.new newBaseline h in
  match previousSession with
  | None => Normal fresh
  | Some prev =>
      if bool_decide (EnvState.hasChanges prev = Some true)
      then EnvState.applyDiff (diff previousBaseline (EnvState.entries fresh.1 prev)) fresh
      else Normal fresh
  end.

End Reconciler.

(** ** Sequences of mutations of one session *)

Inductive Mutation : Type :=
  | SetKeyAtIndex (index : nat) (key : string)
  | SetValueAtIndex (index : nat) (val : string)
  | RemoveEntryAtIndex (index : nat)
  | ApplyDiff (diff : Diff).

Definition mutate (m : Mutation) (σ : Heap * EnvState.t) : completion (Heap * EnvState.t) :=
  match m with
  | SetKeyAtIndex index key => EnvState.setKeyAtIndex index key σ
  | SetValueAtIndex index val => EnvState.setValueAtIndex index val σ
  | RemoveEntryAtIndex index => Normal (EnvState.removeEntryAtIndex index σ)
  | ApplyDiff diff => EnvState.applyDiff diff σ
  end.

Definition mutations (ms : list Mutation) (σ : Heap * EnvState.t) : completion (Heap * EnvState.t) :=
  forEach mutate ms σ.

(** ** Vocabulary of the statements *)

(** The array after [arr[index] = x], for an index of the array or the
    one just past its end. *)
Definition place {A : Type} (arr : list A) (index : nat) (x : A) : list A :=
  if decide (index < length arr) then <[index := x]> arr else arr ++ [x].

(** The status of an index against the original entries (section 4.3):
    a deleted index is dirty when the original has it, any other index
    when its pair is not the original's. *)
Definition dirty_at (original current : Entries) (tr : Tracking) (i : nat) : Prop :=
  if decide (i ∈ deletedIndices tr)
  then i < getLength original
  else i < length current ∧ original !! i ≠ current !! i.

Definition dirty (σ : Heap * EnvState.t) (i : nat) : Prop :=
  dirty_at (EnvState.originalEntries (EnvState._state σ.2)) (EnvState._entries σ.2)
           (EnvState.tracked σ.1 σ.2) i.

(** [changedIndices] holds exactly the dirty indices, and [hasChanges] is
    truthy exactly when there is one. *)
Definition index_ok (original current : Entries) (tr : Tracking) (j : nat) : Prop :=
  j ∈ changedIndices tr ↔ dirty_at original current tr j.



(** What the methods do to the tracking objects, as functions of the
    objects alone: [_trackChanges], [removeEntryAtIndex] and
    [setKeyAtIndex], the latter two with the entries they leave. *)
Definition track (original current : Entries) (index : nat) (tr : Tracking) : Tracking :=
  set_changedIndices
    (if decide (index ∈ deletedIndices tr) then
       if decide (index < getLength original) then {[index]} ∪ changedIndices tr
       else changedIndices tr ∖ {[index]}
     else if entriesEqual (original !! index) (current !! index)
       then changedIndices tr ∖ {[index]}
       else {[index]} ∪ changedIndices tr)
    tr.

Definition tombstone (original current : Entries) (index : nat) (tr : Tracking) : Tracking :=
  track original current index (set_deletedIndices ({[index]} ∪ deletedIndices tr) tr).

Definition restore (index : nat) (tr : Tracking) : Tracking :=
  set_deletedIndices (deletedIndices tr ∖ {[index]}) tr.

Definition rekey (original current : Entries) (index : nat) (key : string) (tr : Tracking) : Tracking :=
  let tr1 := track original current index (restore index tr) in
  match uniqueKeyMap tr1 !! key with
  | Some j =>
      if decide (j ≠ index)
      then set_uniqueKeyMap (obj_set key index (uniqueKeyMap tr1)) (tombstone original current j tr1)
      else tr1
  | None => tr1
  end.

Definition truthy (tr : Tracking) : option bool :=
  Some (bool_decide (0 < size (changedIndices tr))).

(** The state a call leaves behind, however it ended. *)
Definition state_of {A : Type} (c : completion A) : A :=
  match c with
  | Normal a => a
  | Throw a => a
  end.


(** The rows [map] shows: index and pair of every entry that is not
    deleted and whose key passes the filter. *)
Definition visible (fz : string → string → bool) (h : Heap) (this : EnvState.t) : list (nat * Entry) :=
  filter (λ ie : nat * Entry,
            (ie.1 ∉ deletedIndices (EnvState.tracked h this))
            ∧ (EnvState.filterText (EnvState._state this) = ""
               ∨ fz ie.2.1 (EnvState.filterText (EnvState._state this)) = true))
         (imap pair (EnvState._entries this)).


(** The entries of the session a call returned, and of the session the
    editor holds after a release arrived. *)
Definition session_entries (c : completion (Heap * EnvState.t)) : option Entries :=
  match c with
  | Normal (h, this) => Some (EnvState.entries h this)
  | Throw _ => None
  end.

Definition editor_entries (c : completion (Heap * WrappedEnvEditor.WrappedState)) : option Entries :=
  match c with
  | Normal (h, state) => EnvState.entries h <$> WrappedEnvEditor.envState state
  | Throw _ => None
  end.

(** The state [setState] leaves when the callback of [_getData] put the
    release and the session [s] into it. *)
Definition loaded (rel : WrappedEnvEditor.Release) (state : WrappedEnvEditor.WrappedState)
    (s : EnvState.t) : WrappedEnvEditor.WrappedState :=
  WrappedEnvEditor.mkState (Some rel) false (WrappedEnvEditor.isDeploying state) (Some s).

(** The last operation of a diff on a key, which decides what [apply]
    leaves under that key. *)
Fixpoint last_op (key : string) (d : Diff) : option DiffOp :=
  match d with
  | [] => None
  | op :: d' =>
      match last_op key d' with
      | Some o => Some o
      | None => if decide (op_key op = key) then Some op else None
      end
  end.

(** An operation [applyDiff] skips: an [Add] with an empty value. *)
Definition skipped (op : DiffOp) : bool :=
  match op with
  | Add _ value => bool_decide (value = "")
  | Remove _ => false
  end.

(** ** More of the editor

    The rest of [EnvEditor.tsx]: the component [EnvInput], what
    [EnvEditor] renders, and the state of [WrappedEnvEditor] with what it
    renders. *)

(** *** class EnvInput *)

Module EnvInput.

Record EnvInputProps : Type := mkProps {
  placeholder : string;
  value : string;
  disabled : option bool
}.

Record EnvInputState : Type := mkState {
  expanded : bool;
  multiline : bool
}.

(** What [render] returns: the textarea or the text input. *)
Inductive Element : Type :=
  | textarea (value : string)
  | input (disabled : option bool) (placeholder value : string).

(** [props.value.indexOf('\n') >= 0] *)
Definition has_newline (value : string) : bool :=
  bool_decide (is_Some (String.index 0 (String (Ascii.ascii_of_nat 10) EmptyString) value)).

(** The constructor. *)
Definition constructor (props : EnvInputProps) : EnvInputState :=
  mkState false (has_newline (value props)).

(** [render] *)
Definition render (props : EnvInputProps) (state : EnvInputState) : Element :=
  if expanded state then textarea (value props)
  else input (disabled props) (placeholder props) (value props).

(** [_inputChangeHandler] and [_textareaChangeHandler]: the value handed
    to [props.onChange]; [e.target.value || ''] of a string is the string. *)
Definition _inputChangeHandler (target_value : string) : string := target_value.
Definition _textareaChangeHandler (target_value : string) : string := target_value.

(** [_inputFocusHandler] *)
Definition _inputFocusHandler (state : EnvInputState) : EnvInputState :=
  if multiline state then mkState true (multiline state) else state.

(** [_textareaBlurHandler] *)
Definition _textareaBlurHandler (state : EnvInputState) : EnvInputState :=
  if expanded state then mkState false (multiline state) else state.

(** The events of the component: the handler of the element on screen
    runs, or the parent hands in new props. *)
Inductive Event : Type :=
  | Focus
  | Blur
  | Props (props : EnvInputProps).

Definition step (e : Event) (ps : EnvInputProps * EnvInputState) : EnvInputProps * EnvInputState :=
  match e with
  | Focus => (ps.1, _inputFocusHandler ps.2)
  | Blur => (ps.1, _textareaBlurHandler ps.2)
  | Props props => (props, ps.2)
  end.

Definition run (es : list Event) (props : EnvInputProps) : EnvInputProps * EnvInputState :=
  fold_left (λ ps e, step e ps) es (props, constructor props).

End EnvInput.

(** *** class EnvEditor: what it renders, and the events of its rows *)

Module EnvEditorView.

(** What [render] shows: a row with its index for everything
    [entries.map] enumerates, and a button that submits only when
    [entries.hasChanges] is truthy. *)
Record View : Type := mkView {
  rows : list (nat * Entry);
  submits : bool
}.

Definition render (fz : string → string → bool) (σ : Heap * EnvState.t) : View :=
  mkView (EnvState.map fz (λ entry index, (index, entry)) σ.1 σ.2)
         (bool_decide (EnvState.hasChanges σ.2 = Some true)).

(** The events a user can cause: a change of the key or of the value of a
    row, and a change of the search text. *)
Inductive Event : Type :=
  | KeyChange (index : nat) (key : string)
  | ValueChange (index : nat) (value : string)
  | Search (value : string).

Definition step (e : Event) (σ : Heap * EnvState.t) : completion (Heap * EnvState.t) :=
  match e with
  | KeyChange index key => EnvEditor._keyChangeHandler index key σ
  | ValueChange index value => EnvEditor._valueChangeHandler index value σ
  | Search value => Normal (EnvEditor._searchInputHandler value σ)
  end.

(** The handlers of a row are bound to the index [render] gave the row. *)
Definition offered (fz : string → string → bool) (σ : Heap * EnvState.t) (e : Event) : Prop :=
  match e with
  | KeyChange index _ | ValueChange index _ => index ∈ (rows (render fz σ)).*1
  | Search _ => True
  end.

(** The sessions the editor can show: the one of a baseline, the one
    [applyDiff] made of it, and those the events make of them. *)
Inductive shown (fz : string → string → bool) : Heap * EnvState.t → Prop :=
  | shown_new baseline h : shown fz (EnvState.new baseline h)
  | shown_applyDiff σ diff σ' :
      shown fz σ → EnvState.applyDiff diff σ = Normal σ' → shown fz σ'
  | shown_step σ e σ' :
      shown fz σ → offered fz σ e → step e σ = Normal σ' → shown fz σ'.

End EnvEditorView.

(** *** class WrappedEnvEditor: its state and what it renders *)

Module WrappedEnvEditorView.

Import WrappedEnvEditor.

(** The state the constructor sets. *)
Definition constructor : WrappedState := mkState None true false None.

(** [_getData], up to the subscription to the release stream: the
    [setState] that clears the release and the session. *)
Definition _getData (state : WrappedState) : WrappedState :=
  mkState None true (isDeploying state) None.

(** [_handleChange] *)
Definition _handleChange (entries : EnvState.t) (state : WrappedState) : WrappedState :=
  mkState (release state) (isLoading state) (isDeploying state) (Some entries).

(** [_handleSubmit] *)
Definition _handleSubmit (entries : EnvState.t) (state : WrappedState) : WrappedState :=
  mkState (release state) (isLoading state) true (Some entries).

(** [_handleDeployCancel] *)
Definition _handleDeployCancel (state : WrappedState) : WrappedState :=
  mkState (release state) (isLoading state) false (envState state).

(** [_handleDeploymentCreate] *)
Definition _handleDeploymentCreate (state : WrappedState) : WrappedState :=
  mkState (release state) (isLoading state) false None.

(** What [render] returns. *)
Inductive View : Type :=
  | Loading
  | CreateDeployment
  | Editor (entries : EnvState.t).

(** [render]; [None] is the error ['Unexpected lack of release!']. The
    editor gets [envState || new EnvState(release.getEnvMap())]. *)
Definition render (σ : Heap * WrappedState) : option (Heap * View) :=
  let '(h, state) := σ in
  if isLoading state then Some (h, Loading)
  else if isDeploying state then Some (h, CreateDeployment)
  else
    match release state with
    | None => None
    | Some rel =>
        match envState state with
        | Some entries => Some (h, Editor entries)
        | None =>
            let fresh := EnvState.new (getEnvMap rel) h in
            Some (fresh.1, Editor fresh.2)
        end
    end.

(** What happens to the component: [_getData] runs, the release stream
    calls back, or a child calls one of the handlers. *)
Inductive Event : Type :=
  | GetData
  | Stream (rel : Release) (error : bool)
  | Change (entries : EnvState.t)
  | Submit (entries : EnvState.t)
  | DeployCancel
  | DeploymentCreate.

Definition step (protoMapDiff : Entries → Entries → Diff) (e : Event)
    (σ : Heap * WrappedState) : completion (Heap * WrappedState) :=
  match e with
  | GetData => Normal (σ.1, _getData σ.2)
  | Stream rel error => onRelease protoMapDiff rel error σ
  | Change entries => Normal (σ.1, _handleChange entries σ.2)
  | Submit entries => Normal (σ.1, _handleSubmit entries σ.2)
  | DeployCancel => Normal (σ.1, _handleDeployCancel σ.2)
  | DeploymentCreate => Normal (σ.1, _handleDeploymentCreate σ.2)
  end.

Definition run (protoMapDiff : Entries → Entries → Diff) (es : list Event) (h : Heap) :
    completion (Heap * WrappedState) :=
  forEach (step protoMapDiff) es (h, constructor).

End WrappedEnvEditorView.

(** *** Vocabulary of the statements about them *)

(** The pairs a session shows under a key: those of the rows that are not
    deleted. *)
Definition live (σ : Heap * EnvState.t) (e : Entry) : Prop :=
  ∃ j, EnvState._entries σ.2 !! j = Some e
       ∧ j ∉ deletedIndices (EnvState.tracked σ.1 σ.2).

(** A session whose rows have distinct keys and whose [uniqueKeyMap]
    holds, for every key it has, the index of the row with that key. *)
Definition keyed (σ : Heap * EnvState.t) : Prop :=
  NoDup ((EnvState._entries σ.2).*1)
  ∧ ∀ k j, uniqueKeyMap (EnvState.tracked σ.1 σ.2) !! k = Some j →
           ∃ v, EnvState._entries σ.2 !! j = Some (k, v).

(** What one operation of a diff does to the pairs a session shows. *)
Definition op_leaves (op : DiffOp) (before : Entry → Prop) (e : Entry) : Prop :=
  if decide (op_key op = e.1) then
    match op with
    | Add _ value => e.2 = value
    | Remove _ => False
    end
  else before e.

(** What the last operation of a diff on a key leaves of the pairs of a
    baseline. *)
Definition left_by (baseline : Entries) (d : Diff) (e : Entry) : Prop :=
  match last_op e.1 d with
  | None => e ∈ baseline
  | Some (Add _ value) => e.2 = value
  | Some (Remove _) => False
  end.

(** * Properties *)

(** ** Arrays *)

Lemma new_Map_dense (l : list Entry) : new_Map (Some <$> l) = Some l.
Proof. induction l as [|e l IH]; csimpl; [done|]. by rewrite IH. Qed.

Lemma new_Map_app_dense (l : list Entry) (k : list (option Entry)) :
  new_Map ((Some <$> l) ++ k) = (l ++.) <$> new_Map k.
Proof.
  induction l as [|e l IH]; csimpl.
  - by destruct (new_Map k).
  - rewrite IH. by destruct (new_Map k).
Qed.

Lemma new_Map_array_set (arr : list Entry) (index : nat) (x : Entry) :
  new_Map (array_set arr index x)
  = if decide (index ≤ length arr) then Some (place arr index x) else None.
Proof.
  unfold array_set, place.
  destruct (decide (index < length arr)) as [Hlt|Hge].
  - rewrite new_Map_dense. by rewrite decide_True by lia.
  - rewrite new_Map_app_dense.
    destruct (decide (index ≤ length arr)) as [Hle|Hgt].
    + replace (index - length arr) with 0 by lia. done.
    + destruct (index - length arr) as [|n] eqn:Hn; [lia|done].
Qed.

Lemma length_array_set {A : Type} (arr : list A) (index : nat) (x : A) :
  index ≤ length arr → length (array_set arr index x) = length (place arr index x).
Proof.
  intros Hle. unfold array_set, place. case_decide.
  - by rewrite length_fmap.
  - rewrite !length_app, length_fmap, length_replicate. simpl. lia.
Qed.

Lemma length_place {A : Type} (arr : list A) (index : nat) (x : A) :
  length (place arr index x) = if decide (index < length arr) then length arr else S (length arr).
Proof.
  unfold place. case_decide.
  - by rewrite length_insert.
  - rewrite length_app. simpl. lia.
Qed.

Lemma place_lookup_eq {A : Type} (arr : list A) (index : nat) (x : A) :
  index ≤ length arr → place arr index x !! index = Some x.
Proof.
  intros Hle. unfold place. case_decide.
  - by apply list_lookup_insert_eq.
  - assert (index = length arr) as -> by lia.
    rewrite lookup_app_r by lia. by rewrite Nat.sub_diag.
Qed.

Lemma place_lookup_ne {A : Type} (arr : list A) (index j : nat) (x : A) :
  index ≤ length arr → index ≠ j → place arr index x !! j = arr !! j.
Proof.
  intros Hle Hne. unfold place. case_decide.
  - by apply list_lookup_insert_ne.
  - destruct (decide (j < length arr)) as [Hj|Hj].
    + by apply lookup_app_l.
    + rewrite (lookup_ge_None_2 arr) by lia.
      apply lookup_ge_None_2. rewrite length_app. simpl. lia.
Qed.

(** ** The methods as updates of the tracking objects *)

Arguments EnvState._trackChanges : simpl never.
Arguments EnvState.removeEntryAtIndex : simpl never.
Arguments EnvState.setKeyAtIndex : simpl never.
Arguments EnvState.setValueAtIndex : simpl never.
Arguments EnvState.map : simpl never.
Arguments EnvState.mapDeleted : simpl never.
Arguments EnvState.entries : simpl never.
Arguments EnvState.isDeleted : simpl never.

Lemma _trackChanges_eq index h this :
  EnvState._trackChanges index (h, this)
  = (<[EnvState.tracking (EnvState._state this) :=
         track (EnvState.originalEntries (EnvState._state this)) (EnvState._entries this)
               index (EnvState.tracked h this)]> h,
     EnvState.set_hasChanges
       (truthy (track (EnvState.originalEntries (EnvState._state this)) (EnvState._entries this)
                      index (EnvState.tracked h this))) this).
Proof. reflexivity. Qed.

Lemma removeEntryAtIndex_eq index h this :
  let tr' := tombstone (EnvState.originalEntries (EnvState._state this)) (EnvState._entries this)
                       index (EnvState.tracked h this) in
  EnvState.removeEntryAtIndex index (h, this)
  = (<[EnvState.tracking (EnvState._state this) := tr']> h,
     EnvState.mk (EnvState.length this) (size (deletedIndices tr')) (truthy tr')
       (EnvState._entries this) (EnvState._state this)).
Proof.
  destruct this as [len dl hc es [orig loc ft]].
  unfold EnvState.removeEntryAtIndex, EnvState._setDeletedLength. rewrite _trackChanges_eq.
  unfold EnvState.update_tracked, EnvState.tracked. simpl.
  rewrite !lookup_total_insert_eq. simpl. by rewrite insert_insert_eq.
Qed.

Lemma setKeyAtIndex_eq index key h this :
  index ≤ length (EnvState._entries this) →
  let arr' := place (EnvState._entries this) index
                (key, default "" (snd <$> EnvState._entries this !! index)) in
  let tr' := rekey (EnvState.originalEntries (EnvState._state this)) arr' index key
                   (EnvState.tracked h this) in
  EnvState.setKeyAtIndex index key (h, this)
  = Normal (<[EnvState.tracking (EnvState._state this) := tr']> h,
            EnvState.mk (length arr') (size (deletedIndices tr')) (truthy tr') arr'
              (EnvState._state this)).
Proof.
  destruct this as [len dl hc es [orig loc ft]]. simpl. intros Hle.
  set (arr' := place es index (key, default "" (snd <$> es !! index))).
  unfold EnvState.setKeyAtIndex, EnvState._setDeletedLength. cbn.
  unfold toArray. rewrite new_Map_array_set, decide_True by done.
  rewrite length_array_set by done. fold arr'.
  rewrite _trackChanges_eq. cbn.
  unfold EnvState.tracked. cbn.
  rewrite !lookup_total_insert_eq, insert_insert_eq.
  unfold rekey, restore. cbn.
  destruct (uniqueKeyMap (h !!! loc) !! key) as [j|] eqn:Hj; [|done].
  assert (index < length arr') as Hlt.
  { unfold arr'. rewrite length_place. case_decide; lia. }
  destruct (decide (j ≠ index)) as [Hne|Heq].
  - rewrite decide_True by done.
    rewrite removeEntryAtIndex_eq. cbn.
    unfold EnvState.update_tracked, EnvState.tracked. cbn.
    rewrite !lookup_total_insert_eq, !insert_insert_eq. done.
  - rewrite decide_False by tauto. done.
Qed.

Lemma setKeyAtIndex_throws index key h this :
  length (EnvState._entries this) < index →
  let tr' := restore index (EnvState.tracked h this) in
  EnvState.setKeyAtIndex index key (h, this)
  = Throw (<[EnvState.tracking (EnvState._state this) := tr']> h,
           EnvState.mk (S index) (size (deletedIndices tr')) (EnvState.hasChanges this)
             (EnvState._entries this) (EnvState._state this)).
Proof.
  destruct this as [len dl hc es [orig loc ft]]. cbn. intros Hlt.
  unfold EnvState.setKeyAtIndex, EnvState._setDeletedLength. cbn.
  unfold toArray. rewrite new_Map_array_set, decide_False by lia.
  unfold EnvState.tracked, restore. cbn. rewrite lookup_total_insert_eq.
  unfold array_set. rewrite decide_False by lia.
  rewrite !length_app, length_fmap, length_replicate. cbn.
  by replace (length es + (index - length es + 1)) with (S index) by lia.
Qed.

Lemma setValueAtIndex_eq index val h this :
  index ≤ length (EnvState._entries this) →
  let key := default "" (fst <$> EnvState._entries this !! index) in
  let arr' := place (EnvState._entries this) index (key, val) in
  let original := EnvState.originalEntries (EnvState._state this) in
  let tr := EnvState.tracked h this in
  EnvState.setValueAtIndex index val (h, this)
  = Normal
      (if bool_decide (val = "") && bool_decide (key = "") then
         (<[EnvState.tracking (EnvState._state this) := tombstone original arr' index tr]> h,
          EnvState.mk (length arr') (size (deletedIndices (tombstone original arr' index tr)))
            (truthy (tombstone original arr' index tr)) arr' (EnvState._state this))
       else
         (<[EnvState.tracking (EnvState._state this) := track original arr' index tr]> h,
          EnvState.mk (length arr') (EnvState.deletedLength this)
            (truthy (track original arr' index tr)) arr' (EnvState._state this))).
Proof.
  destruct this as [len dl hc es [orig loc ft]]. cbn. intros Hle.
  unfold EnvState.setValueAtIndex. cbn.
  unfold toArray. rewrite new_Map_array_set, decide_True by done.
  rewrite length_array_set by done.
  destruct (bool_decide (val = "")); cbn; [|rewrite _trackChanges_eq; by cbn].
  destruct (bool_decide (default "" (fst <$> es !! index) = "")); cbn.
  - rewrite removeEntryAtIndex_eq. by cbn.
  - rewrite _trackChanges_eq. by cbn.
Qed.

Lemma setValueAtIndex_throws index val h this :
  length (EnvState._entries this) < index →
  EnvState.setValueAtIndex index val (h, this) = Throw (h, EnvState.set_length (S index) this).
Proof.
  destruct this as [len dl hc es [orig loc ft]]. cbn. intros Hlt.
  unfold EnvState.setValueAtIndex. cbn.
  unfold toArray. rewrite new_Map_array_set, decide_False by lia.
  unfold array_set. rewrite decide_False by lia.
  rewrite !length_app, length_fmap, length_replicate. cbn.
  by replace (length es + (index - length es + 1)) with (S index) by lia.
Qed.

(** ** The tracking objects and the status of the indices *)

Lemma entriesEqual_true (a b : option Entry) :
  entriesEqual a b = true ↔ is_Some a ∧ a = b.
Proof.
  destruct a as [[k v]|], b as [[k' v']|]; cbn;
    rewrite ?andb_true_iff, ?bool_decide_eq_true; naive_solver.
Qed.

Lemma length_remove_dups_le (l : list string) : length (remove_dups l) ≤ length l.
Proof. induction l as [|x l IH]; cbn; [done|]. case_decide; cbn; lia. Qed.

Lemma getLength_le (m : Entries) : getLength m ≤ length m.
Proof.
  unfold getLength. rewrite <- (length_fmap fst m).
  etrans; [apply length_remove_dups_le|]. apply length_filter.
Qed.


Lemma truthy_true (tr : Tracking) : truthy tr = Some true ↔ changedIndices tr ≠ ∅.
Proof.
  unfold truthy. split.
  - intros [= Hb%bool_decide_eq_true] Hempty. rewrite Hempty, size_empty in Hb. lia.
  - intros Hne. f_equal. apply bool_decide_eq_true.
    destruct (decide (size (changedIndices tr) = 0)) as [H0%size_empty_iff|]; [|lia].
    by apply leibniz_equiv in H0.
Qed.

Lemma index_ok_track_eq original current tr i :
  i ∈ deletedIndices tr ∨ i < length current →
  index_ok original current (track original current i tr) i.
Proof.
  intros Hi. unfold index_ok, dirty_at, track. cbn.
  destruct (decide (i ∈ deletedIndices tr)) as [Hd|Hd].
  - case_decide; set_solver.
  - destruct Hi as [?|Hlt]; [done|].
    destruct (entriesEqual (original !! i) (current !! i)) eqn:He.
    + apply entriesEqual_true in He as [_ He]. set_solver.
    + assert (original !! i ≠ current !! i).
      { intros Heq. apply not_true_iff_false in He. apply He, entriesEqual_true.
        split; [|done]. rewrite Heq. by apply lookup_lt_is_Some. }
      set_solver.
Qed.










(** ** Every method keeps the tracking consistent *)




(** ** Indexed array functions *)

Lemma findIndex_from_Some {A : Type} (p : A → bool) (l : list A) (i n : nat) :
  findIndex_from p i l = Some n ↔
  ∃ k x, n = i + k ∧ l !! k = Some x ∧ p x = true
         ∧ ∀ j y, j < k → l !! j = Some y → p y = false.
Proof.
  revert i. induction l as [|a l IH]; intros i; cbn.
  - split; [done|]. by intros (k & x & _ & ? & _).
  - destruct (p a) eqn:Hp.
    + split.
      * intros [= <-]. exists 0, a. repeat split; [lia|done|]. intros j y Hj. lia.
      * intros (k & x & -> & Hk & Hx & Hfirst). destruct k as [|k]; [f_equal; lia|].
        specialize (Hfirst 0 a). cbn in Hfirst. rewrite Hfirst in Hp; [done|lia|done].
    + rewrite IH. split.
      * intros (k & x & -> & Hk & Hx & Hfirst). exists (S k), x.
        repeat split; [lia|done|done|]. intros [|j] y Hj; cbn; [by intros [= <-]|].
        apply Hfirst. lia.
      * intros (k & x & -> & Hk & Hx & Hfirst). destruct k as [|k].
        { cbn in Hk. injection Hk as ->. congruence. }
        exists k, x. repeat split; [lia|done|done|]. intros j y Hj Hy.
        apply (Hfirst (S j)); [lia|done].
Qed.

Lemma findIndex_Some {A : Type} (p : A → bool) (l : list A) (n : nat) :
  findIndex p l = Some n ↔
  (∃ x, l !! n = Some x ∧ p x = true) ∧ ∀ j y, j < n → l !! j = Some y → p y = false.
Proof.
  unfold findIndex. rewrite findIndex_from_Some. split.
  - intros (k & x & -> & ? & ? & ?). eauto.
  - intros [(x & ? & ?) ?]. exists n, x. eauto.
Qed.

Lemma findIndex_from_None {A : Type} (p : A → bool) (l : list A) (i : nat) :
  findIndex_from p i l = None ↔ ∀ x, x ∈ l → p x = false.
Proof.
  revert i. induction l as [|a l IH]; intros i; cbn.
  - split; [|done]. intros _ x Hx. by apply elem_of_nil in Hx.
  - destruct (p a) eqn:Hp.
    + split; [done|]. intros Hall. rewrite Hall in Hp; [done|]. by left.
    + rewrite IH. split.
      * intros Hall x [->|Hx]%elem_of_cons; [done|by apply Hall].
      * intros Hall x Hx. apply Hall. by right.
Qed.

Lemma findIndex_None {A : Type} (p : A → bool) (l : list A) :
  findIndex p l = None ↔ ∀ x, x ∈ l → p x = false.
Proof. apply findIndex_from_None. Qed.

Lemma findIndex_bound {A : Type} (p : A → bool) (l : list A) :
  default (length l) (findIndex p l) ≤ length l.
Proof.
  destruct (findIndex p l) as [n|] eqn:Hn; cbn; [|done].
  apply findIndex_Some in Hn as [(x & Hx & _) _]. apply lookup_lt_Some in Hx. lia.
Qed.

Lemma filter_from_ext {A : Type} (p q : A → nat → bool) (i : nat) (l : list A) :
  (∀ k x, l !! k = Some x → p x (i + k) = q x (i + k)) →
  filter_from p i l = filter_from q i l.
Proof.
  revert i. induction l as [|a l IH]; intros i Hpq; cbn; [done|].
  pose proof (Hpq 0 a eq_refl) as H0. rewrite Nat.add_0_r in H0. rewrite H0.
  rewrite (IH (S i)); [done|]. intros k x Hk.
  replace (S i + k) with (i + S k) by lia. by apply Hpq.
Qed.




Lemma elem_of_filter_from {A : Type} (p : A → nat → bool) (i : nat) (l : list A) (x : A) :
  x ∈ filter_from p i l ↔ ∃ k, l !! k = Some x ∧ p x (i + k) = true.
Proof.
  revert i. induction l as [|a l IH]; intros i; cbn.
  - split; [by intros ?%elem_of_nil|]. by intros (k & ? & _).
  - destruct (p a i) eqn:Hp.
    + rewrite elem_of_cons, IH. split.
      * intros [->|(k & Hk & Hx)].
        -- exists 0. by rewrite Nat.add_0_r.
        -- exists (S k). by replace (i + S k) with (S i + k) by lia.
      * intros ([|k] & Hk & Hx); cbn in Hk.
        -- left. congruence.
        -- right. exists k. by replace (S i + k) with (i + S k) by lia.
    + rewrite IH. split.
      * intros (k & Hk & Hx). exists (S k). by replace (i + S k) with (S i + k) by lia.
      * intros ([|k] & Hk & Hx); cbn in Hk.
        -- injection Hk as ->. rewrite Nat.add_0_r in Hx. congruence.
        -- exists k. by replace (S i + k) with (i + S k) by lia.
Qed.

(** ** Sequences of calls *)

Lemma forEach_invariant {A S : Type} (P : S → Prop) (f : A → S → completion S) (l : list A) σ :
  (∀ x σ, P σ → P (state_of (f x σ))) → P σ → P (state_of (forEach f l σ)).
Proof.
  intros Hf. revert σ. induction l as [|x l IH]; intros σ Hσ; cbn; [done|].
  specialize (Hf x σ Hσ). destruct (f x σ) as [σ'|σ']; cbn in *; [by apply IH|done].
Qed.

Lemma forEach_returns {A S : Type} (f : A → S → completion S) (l : list A) σ :
  (∀ x σ, ∃ σ', f x σ = Normal σ') → ∃ σ', forEach f l σ = Normal σ'.
Proof.
  intros Hf. revert σ. induction l as [|x l IH]; intros σ; cbn; [by eexists|].
  destruct (Hf x σ) as [σ' ->]. cbn. apply IH.
Qed.









(** ** [applyDiff] always returns *)

Lemma applyOp_returns op σ : ∃ σ', EnvState.applyOp op σ = Normal σ'.
Proof.
  destruct σ as [h this]. unfold EnvState.applyOp. destruct op as [key value|key]; cbn.
  - case_bool_decide; [|by eexists].
    pose proof (findIndex_bound (λ e : Entry, bool_decide (e.1 = key)) (EnvState._entries this)) as Hle.
    unfold toArray. rewrite setKeyAtIndex_eq by done. cbn.
    rewrite setValueAtIndex_eq; [by eexists|]. cbn.
    rewrite length_place. case_decide; lia.
  - destruct (findIndex _ _); by eexists.
Qed.

Lemma applyDiff_returns diff σ : ∃ σ', EnvState.applyDiff diff σ = Normal σ'.
Proof. apply forEach_returns. intros op σ'. apply applyOp_returns. Qed.

(** ** The scenarios of the specification (section 8) *)

Example scenario_setValue :
  let σ := state_of (mutations [SetValueAtIndex 0 "9"]
                               (EnvState.new [("A", "1"); ("B", "2")] ∅)) in
  EnvState.entries σ.1 σ.2 = [("A", "9"); ("B", "2")]
  ∧ EnvState.hasChanges σ.2 = Some true
  ∧ DiffEngine.diff [("A", "1"); ("B", "2")] (EnvState.entries σ.1 σ.2) = [Add "A" "9"].
Proof. by vm_compute. Qed.

Example scenario_retyped_key :
  let σ := state_of (mutations [SetKeyAtIndex 0 "A"; SetKeyAtIndex 1 "A"; SetValueAtIndex 1 "2"]
                               (EnvState.new [("A", "1")] ∅)) in
  EnvState.isDeleted σ.1 σ.2 0 = true
  ∧ EnvState._entries σ.2 !! 1 = Some ("A", "2")
  ∧ EnvState.entries σ.1 σ.2 = [("A", "2")].
Proof. by vm_compute. Qed.

Example scenario_new_row :
  let σ := state_of (mutations [SetKeyAtIndex 1 "NEW"; SetValueAtIndex 1 "x"]
                               (EnvState.new [("A", "1")] ∅)) in
  EnvState.length σ.2 = 2
  ∧ EnvState.map (λ _ _, true) (λ _ i, i) σ.1 σ.2 = [0; 1; 2]
  ∧ EnvState.entries σ.1 σ.2 = [("A", "1"); ("NEW", "x")].
Proof. by vm_compute. Qed.

Example scenario_hole :
  EnvState.setKeyAtIndex 3 "K" (EnvState.new [("A", "1")] ∅)
  = Throw (state_of (EnvState.setKeyAtIndex 3 "K" (EnvState.new [("A", "1")] ∅)))
  ∧ session_entries (EnvState.setKeyAtIndex 3 "K" (EnvState.new [("A", "1")] ∅)) = None.
Proof. by vm_compute. Qed.

(** ** Sessions without a dirty index *)



(** ** Change tracking *)




(** ** Enumeration: [map] and [mapDeleted] *)

Lemma reduce_from_select {A T : Type} (P : nat * A → Prop) `{!∀ ie, Decision (P ie)}
    (f : list T → A → nat → list T) (fn : A → nat → T) (i : nat) (l : list A) (acc : list T) :
  (∀ prev x j, f prev x j = if decide (P (j, x)) then prev ++ [fn x j] else prev) →
  reduce_from f i l acc
  = acc ++ ((λ ie : nat * A, fn ie.2 ie.1) <$> filter P (imap (λ k x, (i + k, x)) l)).
Proof.
  intros Hf. revert i acc. induction l as [|a l IH]; intros i acc; cbn [reduce_from].
  - by rewrite app_nil_r.
  - rewrite IH. rewrite Hf. rewrite imap_cons. rewrite filter_cons.
    rewrite (Nat.add_0_r i).
    rewrite (imap_ext ((λ k x, (i + k, x)) ∘ S) (λ k x, (S i + k, x))).
    2:{ intros k x _. cbn. f_equal. lia. }
    case_decide; [|done]. rewrite fmap_cons, <- app_assoc. done.
Qed.

Lemma map_visible (fz : string → string → bool) {T : Type}
    (fn : Entry → nat → T) (h : Heap) (this : EnvState.t) :
  EnvState.map fz fn h this
  = ((λ ie : nat * Entry, fn ie.2 ie.1) <$> visible fz h this)
    ++ [fn ("", "") (EnvState.length this)].
Proof.
  unfold EnvState.map, visible, reduce, toArray. f_equal.
  rewrite (reduce_from_select
             (λ ie : nat * Entry,
                (ie.1 ∉ deletedIndices (EnvState.tracked h this))
                ∧ (EnvState.filterText (EnvState._state this) = ""
                   ∨ fz ie.2.1 (EnvState.filterText (EnvState._state this)) = true))
             _ fn).
  - done.
  - intros prev x j. unfold EnvState.isDeleted. cbn.
    case_bool_decide as Hd; cbn.
    { rewrite decide_False; [done|]. by intros [? _]. }
    case_bool_decide as Hft; cbn.
    + destruct (fz x.1 _) eqn:Hfz; cbn.
      * rewrite decide_True; [done|]. split; [done|by right].
      * rewrite decide_False; [done|]. intros [_ [?|?]]; congruence.
    + rewrite decide_True; [done|]. split; [done|]. left.
      by destruct (decide (EnvState.filterText (EnvState._state this) = "")).
Qed.



Lemma mapDeleted_indices (h : Heap) (this : EnvState.t) (j : nat) :
  j ∈ EnvState.mapDeleted (λ _ index, index) h this
  ↔ j < length (EnvState._entries this) ∧ j ∈ deletedIndices (EnvState.tracked h this).
Proof.
  unfold EnvState.mapDeleted, reduce, toArray.
  rewrite (reduce_from_select
             (λ ie : nat * Entry, ie.1 ∈ deletedIndices (EnvState.tracked h this))
             _ (λ _ index, index)).
  - cbn. rewrite list_elem_of_fmap. split.
    + intros ([i x] & -> & [Hd Hin]%list_elem_of_filter). cbn in *.
      apply elem_of_lookup_imap in Hin as (k & y & [= -> ->] & Hk).
      split; [by apply lookup_lt_Some in Hk|done].
    + intros [Hlt Hd]. destruct (lookup_lt_is_Some_2 _ _ Hlt) as [x Hx].
      exists (j, x). split; [done|]. apply list_elem_of_filter. split; [done|].
      apply elem_of_lookup_imap. eauto.
  - intros prev x i. unfold EnvState.isDeleted. cbn. by case_bool_decide; case_decide.
Qed.

(** ** Tombstones beyond the original entries *)

(** C10, as amended: deleting a row at an index at or beyond the length of
    the original entries records a tombstone ([deletedLength] is the size
    of [deletedIndices], which grows by one when the index was not deleted
    yet) and takes the index out of [changedIndices], so that [hasChanges]
    is false when no other index is changed; [mapDeleted] enumerates the
    index exactly when it is an index of the backing array, which the
    new-entry row is not. *)
Theorem tombstone_beyond_original (h : Heap) (this : EnvState.t) (index : nat) :
  getLength (EnvState.originalEntries (EnvState._state this)) ≤ index →
  let σ' := EnvState.removeEntryAtIndex index (h, this) in
  let deleted' := deletedIndices (EnvState.tracked σ'.1 σ'.2) in
  index ∈ deleted'
  ∧ EnvState.deletedLength σ'.2 = size deleted'
  ∧ 0 < EnvState.deletedLength σ'.2
  ∧ ((index ∉ deletedIndices (EnvState.tracked h this)) →
     EnvState.deletedLength σ'.2 = S (size (deletedIndices (EnvState.tracked h this))))
  ∧ (index ∉ changedIndices (EnvState.tracked σ'.1 σ'.2))
  ∧ ((changedIndices (EnvState.tracked h this) ⊆ {[index]}) →
     EnvState.hasChanges σ'.2 = Some false)
  ∧ (index ∈ EnvState.mapDeleted (λ _ i, i) σ'.1 σ'.2 ↔ index < length (EnvState._entries this)).
Proof.
  intros Hge σ' deleted'. subst σ' deleted'. rewrite mapDeleted_indices.
  rewrite removeEntryAtIndex_eq. unfold EnvState.tracked. cbn.
  rewrite lookup_total_insert_eq. unfold tombstone, track, truthy. cbn.
  rewrite decide_True by set_solver. rewrite decide_False by lia. cbn.
  split; [set_solver|]. split; [done|]. split.
  { rewrite size_union_alt, size_singleton. lia. }
  split.
  { intros Hnew. rewrite size_union, size_singleton by set_solver. done. }
  split; [set_solver|]. split.
  { intros Hsub. f_equal. apply bool_decide_eq_false.
    replace (changedIndices (h !!! EnvState.tracking (EnvState._state this)) ∖ {[index]})
      with (∅ : gset nat) by set_solver.
    rewrite size_empty. lia. }
  split; [tauto|]. intros Hlt. split; [done|set_solver].
Qed.

Lemma tombstone_beyond_original_witness :
  EnvState.hasChanges
    (EnvState.removeEntryAtIndex 1
       ((EnvState.new [("A", "1")] ∅).1, (EnvState.new [("A", "1")] ∅).2)).2 = Some false.
Proof.
  assert (getLength (EnvState.originalEntries
            (EnvState._state (EnvState.new [("A", "1")] ∅).2)) ≤ 1) as Hge
    by (vm_compute; lia).
  apply (tombstone_beyond_original (EnvState.new [("A", "1")] ∅).1
           (EnvState.new [("A", "1")] ∅).2 1 Hge).
  apply (bool_decide_unpack _). by vm_compute.
Defined.

(** C10, as stated, fails on its own example: the tombstone of the
    new-entry row is counted by [deletedLength] and is not enumerated by
    [mapDeleted]. *)
Lemma tombstone_beyond_original_counterexample :
  let σ' := EnvState.removeEntryAtIndex 1 (EnvState.new [("A", "1")] ∅) in
  EnvState.deletedLength σ'.2 = 1
  ∧ EnvState.hasChanges σ'.2 = Some false
  ∧ EnvState.mapDeleted (λ _ i, i) σ'.1 σ'.2 = [].
Proof. by vm_compute. Qed.

(** ** Uniqueness of keys *)

(** C2: [setKeyAtIndex] records a key in [uniqueKeyMap] only when the
    constructor had put it there, so a key that is not in the baseline is
    never seen as a duplicate: from the baseline [A=1, B=2], setting the key
    of row 0 and then of row 1 to [C] returns and leaves two pairs with the
    key [C] in [entries()]. *)
Theorem setKeyAtIndex_duplicates :
  ∃ h this,
    mutations [SetKeyAtIndex 0 "C"; SetKeyAtIndex 1 "C"]
              (EnvState.new [("A", "1"); ("B", "2")] ∅) = Normal (h, this)
    ∧ EnvState.entries h this = [("C", "1"); ("C", "2")]
    ∧ ¬ NoDup ((EnvState.entries h this).*1).
Proof.
  eexists _, _. split; [by vm_compute|]. split; [by vm_compute|].
  vm_compute. intros Hnd. apply NoDup_cons in Hnd as [Hnotin _]. apply Hnotin. by left.
Qed.

(** ** Aliasing through [dup] *)

(** C3: [dup] copies the references to the tracking objects, not the
    objects. After [s2 = s.dup()] and [s2.removeEntryAtIndex(0)] the
    session [s], which nobody touched, has lost its only entry, no longer
    shows row 0 and lists index 0 as deleted, while its [deletedLength]
    still is 0 and its [hasChanges] still is undefined. *)
Theorem dup_shares_tracking :
  let s := EnvState.new [("A", "1")] ∅ in
  let s2 := EnvState.dup s in
  let h' := (EnvState.removeEntryAtIndex 0 s2).1 in
  (EnvState.entries s.1 s.2 = [("A", "1")]
   ∧ EnvState.map (λ _ _, true) (λ _ i, i) s.1 s.2 = [0; 1]
   ∧ EnvState.mapDeleted (λ _ i, i) s.1 s.2 = [])
  ∧ (EnvState.entries h' s.2 = []
     ∧ EnvState.map (λ _ _, true) (λ _ i, i) h' s.2 = [1]
     ∧ EnvState.mapDeleted (λ _ i, i) h' s.2 = [0])
  ∧ EnvState.deletedLength s.2 = 0
  ∧ EnvState.hasChanges s.2 = None.
Proof. by vm_compute. Qed.

(** ** Single calls *)

Lemma place_place {A : Type} (arr : list A) (index : nat) (x y : A) :
  index ≤ length arr → place (place arr index x) index y = place arr index y.
Proof.
  intros Hle.
  assert (index ≤ length (place arr index x)) as Hle'.
  { rewrite length_place. case_decide; lia. }
  apply list_eq. intros j. destruct (decide (j = index)) as [->|Hne].
  - by rewrite !place_lookup_eq.
  - by rewrite !place_lookup_ne.
Qed.

Lemma rekey_not_deleted original current index key tr :
  index ∉ deletedIndices (rekey original current index key tr).
Proof.
  unfold rekey. cbn zeta. destruct (uniqueKeyMap _ !! key) as [j|]; [|cbn; set_solver].
  case_decide; cbn; set_solver.
Qed.

Lemma map_indices (fz : string → string → bool) (h : Heap) (this : EnvState.t) (j : nat) :
  j ∈ EnvState.map fz (λ _ index, index) h this
  ↔ ((j ∉ deletedIndices (EnvState.tracked h this))
     ∧ ∃ e, EnvState._entries this !! j = Some e
            ∧ (EnvState.filterText (EnvState._state this) = ""
               ∨ fz e.1 (EnvState.filterText (EnvState._state this)) = true))
    ∨ j = EnvState.length this.
Proof.
  rewrite map_visible. unfold visible.
  rewrite elem_of_app, list_elem_of_fmap, list_elem_of_singleton.
  apply or_iff_compat_r. split.
  - intros ([i x] & -> & [[Hd Hf] Hin]%list_elem_of_filter). cbn in *.
    apply elem_of_lookup_imap in Hin as (k & y & [= -> ->] & Hk). eauto.
  - intros (Hd & e & He & Hf). exists (j, e). split; [done|].
    apply list_elem_of_filter. split; [done|]. apply elem_of_lookup_imap. eauto.
Qed.

(** C8: [removeEntryAtIndex(i)] followed by [setKeyAtIndex(i, k)], for an
    index [i] of the backing array or the new-entry row, returns and leaves
    [i] not deleted, with the key [k] and the value it held before (the
    empty string when it held none). *)
Theorem deletion_reversible (h : Heap) (this : EnvState.t) (i : nat) (k : string) :
  i ≤ length (EnvState._entries this) →
  ∃ h' this',
    EnvState.setKeyAtIndex i k (EnvState.removeEntryAtIndex i (h, this)) = Normal (h', this')
    ∧ EnvState.isDeleted h' this' i = false
    ∧ EnvState._entries this' !! i
      = Some (k, default "" (snd <$> EnvState._entries this !! i)).
Proof.
  intros Hle. rewrite removeEntryAtIndex_eq. cbn zeta.
  rewrite setKeyAtIndex_eq by done. cbn.
  eexists _, _. split; [done|]. split.
  - unfold EnvState.isDeleted, EnvState.tracked. cbn. rewrite lookup_total_insert_eq.
    apply bool_decide_eq_false. apply rekey_not_deleted.
  - cbn. by apply place_lookup_eq.
Qed.

Lemma deletion_reversible_witness :
  ∃ h' this',
    EnvState.setKeyAtIndex 0 "K"
      (EnvState.removeEntryAtIndex 0
         ((EnvState.new [("A", "1")] ∅).1, (EnvState.new [("A", "1")] ∅).2)) = Normal (h', this')
    ∧ EnvState.isDeleted h' this' 0 = false
    ∧ EnvState._entries this' !! 0 = Some ("K", "1").
Proof.
  apply (deletion_reversible (EnvState.new [("A", "1")] ∅).1
           (EnvState.new [("A", "1")] ∅).2 0 "K").
  vm_compute. lia.
Defined.

(** C6: [setValueAtIndex(i, value)], for an index [i] of the backing array
    or the new-entry row, returns with the value at [i] rewritten and the
    key kept (no other row changes). When the pair at [i] now is
    [("", "")], [i] is deleted: [map] does not enumerate it and [entries()]
    is what it is without row [i]. Otherwise no index is deleted or
    restored and the status of [i] in [changedIndices] is the one it has
    against the original entries. *)
Theorem setValueAtIndex_effect (h : Heap) (this : EnvState.t) (i : nat) (value : string) :
  i ≤ length (EnvState._entries this) →
  let key := default "" (fst <$> EnvState._entries this !! i) in
  ∃ h' this',
    EnvState.setValueAtIndex i value (h, this) = Normal (h', this')
    ∧ EnvState._entries this' = place (EnvState._entries this) i (key, value)
    ∧ EnvState._entries this' !! i = Some (key, value)
    ∧ (∀ j, j ≠ i → EnvState._entries this' !! j = EnvState._entries this !! j)
    ∧ (key = "" ∧ value = "" →
         EnvState.isDeleted h' this' i = true
         ∧ (∀ fz, i ∉ EnvState.map fz (λ _ index, index) h' this')
         ∧ EnvState.entries h' this'
           = filter_index
               (λ (entry : Entry) index,
                  bool_decide (index ≠ i) && negb (EnvState.isDeleted h' this' index)
                  && bool_decide (entry.1 ≠ "") && bool_decide (entry.2 ≠ ""))
               (EnvState._entries this'))
    ∧ (¬ (key = "" ∧ value = "") →
         deletedIndices (EnvState.tracked h' this') = deletedIndices (EnvState.tracked h this)
         ∧ (i ∈ changedIndices (EnvState.tracked h' this') ↔ dirty (h', this') i)).
Proof.
  intros Hle key. rewrite setValueAtIndex_eq by done. fold key.
  set (arr' := place (EnvState._entries this) i (key, value)).
  assert (i < length arr') as Hlt.
  { unfold arr'. rewrite length_place. case_decide; lia. }
  destruct (bool_decide (value = "") && bool_decide (key = "")) eqn:Hempty.
  - apply andb_true_iff in Hempty as [Hv%bool_decide_eq_true Hk%bool_decide_eq_true].
    eexists _, _. split; [done|]. cbn. split; [done|].
    split; [by apply place_lookup_eq|]. split; [intros j Hj; by apply place_lookup_ne|].
    split; [|tauto]. intros _.
    match goal with
    | |- EnvState.isDeleted ?h' ?this' i = true ∧ _ =>
        assert (EnvState.isDeleted h' this' i = true) as Hdel
    end.
    { unfold EnvState.isDeleted, EnvState.tracked. cbn. rewrite lookup_total_insert_eq.
      apply bool_decide_eq_true. cbn. set_solver. }
    split; [done|]. split.
    + intros fz. rewrite map_indices. cbn. intros [[Hd _]|Heq]; [|lia].
      apply bool_decide_eq_true in Hdel. by apply Hd.
    + unfold EnvState.entries, filter_index, toArray. apply filter_from_ext.
      intros j x Hj. cbn [Nat.add]. destruct (decide (j = i)) as [->|Hji].
      * rewrite Hdel. by rewrite (bool_decide_eq_false_2 (i ≠ i)) by (intros Hii; by apply Hii).
      * by rewrite (bool_decide_eq_true_2 (j ≠ i)).
  - eexists _, _. split; [done|]. cbn. split; [done|].
    split; [by apply place_lookup_eq|]. split; [intros j Hj; by apply place_lookup_ne|].
    split.
    { intros [Hk Hv].
      apply andb_false_iff in Hempty as [H%bool_decide_eq_false|H%bool_decide_eq_false]; done. }
    intros _. unfold dirty, EnvState.tracked. cbn. rewrite lookup_total_insert_eq.
    split; [done|]. apply index_ok_track_eq. by right.
Qed.

Lemma setValueAtIndex_effect_witness :
  ∃ h' this',
    EnvState.setValueAtIndex 0 "9"
      ((EnvState.new [("A", "1")] ∅).1, (EnvState.new [("A", "1")] ∅).2) = Normal (h', this')
    ∧ EnvState._entries this' = [("A", "9")].
Proof.
  destruct (setValueAtIndex_effect (EnvState.new [("A", "1")] ∅).1
              (EnvState.new [("A", "1")] ∅).2 0 "9") as (h' & this' & Hrun & Harr & _).
  - vm_compute. lia.
  - exists h', this'. split; [exact Hrun|exact Harr].
Defined.

(** ** [applyDiff] *)

Lemma applyOp_skipped op σ : skipped op = true → EnvState.applyOp op σ = Normal σ.
Proof.
  destruct op as [key value|key]; cbn; [|done].
  intros ->%bool_decide_eq_true. done.
Qed.

Lemma applyDiff_skips diff σ :
  EnvState.applyDiff diff σ
  = EnvState.applyDiff (filter (λ op, skipped op = false) diff) σ.
Proof.
  unfold EnvState.applyDiff. revert σ. induction diff as [|op diff IH]; intros σ; [done|].
  rewrite filter_cons. destruct (skipped op) eqn:Hop.
  - rewrite decide_False by done. cbn [forEach]. rewrite applyOp_skipped by done. apply IH.
  - rewrite decide_True by done. cbn [forEach].
    destruct (EnvState.applyOp op σ) as [σ'|σ']; cbn; [apply IH|done].
Qed.

Lemma and_then_Normal {A : Type} (c : completion A) : c >>> Normal = c.
Proof. by destruct c. Qed.

Lemma applyDiff_singleton op σ : EnvState.applyDiff [op] σ = EnvState.applyOp op σ.
Proof. unfold EnvState.applyDiff. cbn [forEach]. apply and_then_Normal. Qed.

Lemma applyOp_add_first (key value : string) (h : Heap) (this : EnvState.t) :
  value ≠ "" →
  let arr := EnvState._entries this in
  ∃ index h' this',
    EnvState.applyOp (Add key value) (h, this) = Normal (h', this')
    ∧ (∀ j e, j < index → arr !! j = Some e → e.1 ≠ key)
    ∧ (index < length arr ∧ (∃ v, arr !! index = Some (key, v))
       ∨ index = length arr)
    ∧ EnvState._entries this' = place arr index (key, value)
    ∧ EnvState.isDeleted h' this' index = false.
Proof.
  intros Hvalue arr.
  set (found := findIndex (λ e : Entry, bool_decide (e.1 = key)) arr).
  exists (default (length arr) found).
  pose proof (findIndex_bound (λ e : Entry, bool_decide (e.1 = key)) arr) as Hle. fold found in Hle.
  unfold EnvState.applyOp. cbn [op_key]. rewrite bool_decide_eq_true_2 by done.
  unfold toArray. cbn [snd]. fold arr. fold found.
  rewrite setKeyAtIndex_eq by done. cbn [and_then].
  rewrite setValueAtIndex_eq.
  2:{ cbn. rewrite length_place. fold arr. case_decide; lia. }
  cbn. rewrite (bool_decide_eq_false_2 (value = "")) by done. cbn.
  eexists _, _. split; [done|]. split; [|split; [|split]].
  - intros j e Hj He Hkey. destruct found as [n|] eqn:Hfound; cbn in *.
    + apply findIndex_Some in Hfound as [_ Hfirst].
      specialize (Hfirst j e Hj He). by apply bool_decide_eq_false in Hfirst.
    + pose proof (proj1 (findIndex_None _ _) Hfound e) as Hnone.
      apply bool_decide_eq_false in Hnone; [done|]. apply list_elem_of_lookup. eauto.
  - destruct found as [n|] eqn:Hfound; cbn; [left|by right].
    apply findIndex_Some in Hfound as [([k v] & Hn & Hk%bool_decide_eq_true) _].
    cbn in Hk. subst k. split; [by apply lookup_lt_Some in Hn|eauto].
  - cbn. rewrite place_place by done. f_equal. f_equal.
    by rewrite place_lookup_eq.
  - unfold EnvState.isDeleted, EnvState.tracked. cbn. rewrite !lookup_total_insert_eq.
    apply bool_decide_eq_false. cbn. apply rekey_not_deleted.
Qed.

(** C9: [applyDiff] skips every [Add] whose value is empty: a diff of
    such an operation alone returns the heap and the session as they
    were, and any diff does what it does without these operations. An
    [Add] with a non-empty value is applied: [applyDiff] of it returns
    with the pair at the first index of the backing array whose key is the
    operation's, deleted or not, and at the end of the array when there is
    none; that index is not deleted afterwards, and the rest of the diff
    runs on the session this leaves. *)
Theorem applyDiff_add (key : string) :
  (∀ σ, EnvState.applyDiff [Add key ""] σ = Normal σ)
  ∧ (∀ diff σ, EnvState.applyDiff (Add key "" :: diff) σ = EnvState.applyDiff diff σ)
  ∧ (∀ diff σ, EnvState.applyDiff diff σ
               = EnvState.applyDiff (filter (λ op, skipped op = false) diff) σ)
  ∧ (∀ value diff h this,
       value ≠ "" →
       let arr := EnvState._entries this in
       ∃ index h' this',
         EnvState.applyDiff [Add key value] (h, this) = Normal (h', this')
         ∧ EnvState.applyDiff (Add key value :: diff) (h, this)
           = EnvState.applyDiff diff (h', this')
         ∧ (∀ j e, j < index → arr !! j = Some e → e.1 ≠ key)
         ∧ (index < length arr ∧ (∃ v, arr !! index = Some (key, v))
            ∨ index = length arr)
         ∧ EnvState._entries this' = place arr index (key, value)
         ∧ EnvState.isDeleted h' this' index = false).
Proof.
  split; [intros σ; rewrite applyDiff_singleton; by apply applyOp_skipped|].
  split.
  { intros diff σ. unfold EnvState.applyDiff. cbn [forEach].
    by rewrite applyOp_skipped by (by apply bool_decide_eq_true). }
  split; [apply applyDiff_skips|].
  intros value diff h this Hvalue arr.
  destruct (applyOp_add_first key value h this Hvalue)
    as (index & h' & this' & Hrun & Hfirst & Hat & Harr & Hlive).
  exists index, h', this'. split; [by rewrite applyDiff_singleton|].
  split; [|done]. unfold EnvState.applyDiff. cbn [forEach]. by rewrite Hrun.
Qed.

Lemma applyDiff_add_witness :
  ∃ index h' this',
    EnvState.applyDiff [Add "A" "9"]
      ((EnvState.new [("A", "1")] ∅).1, (EnvState.new [("A", "1")] ∅).2) = Normal (h', this')
    ∧ EnvState._entries this' = place [("A", "1")] index ("A", "9")
    ∧ EnvState.isDeleted h' this' index = false.
Proof.
  destruct (proj2 (proj2 (proj2 (applyDiff_add "A"))) "9" [] (EnvState.new [("A", "1")] ∅).1
              (EnvState.new [("A", "1")] ∅).2)
    as (index & h' & this' & Hrun & _ & _ & _ & Harr & Hlive).
  - discriminate.
  - exists index, h', this'. split; [exact Hrun|]. split; [exact Harr|exact Hlive].
Defined.

(** ** The reconciler *)

Lemma applyDiff_nil σ : EnvState.applyDiff [] σ = Normal σ.
Proof. done. Qed.

(** When there is no previous release, or the release that arrives has
    another name than the previous one, the callback returns and the
    session it stores is the one of the specification's reconciler: a
    fresh session of the new baseline when there is no prior session or
    its [hasChanges] is not true, and otherwise that fresh session with
    the diff of the previous baseline and the prior session's entries
    applied. *)
Lemma onRelease_renamed (protoMapDiff : Entries → Entries → Diff)
    (rel : WrappedEnvEditor.Release) (h : Heap) (state : WrappedEnvEditor.WrappedState) :
  let previousBaseline :=
    match WrappedEnvEditor.release state with
    | Some prev => WrappedEnvEditor.getEnvMap prev
    | None => []
    end in
  match WrappedEnvEditor.release state with
  | Some prev => WrappedEnvEditor.getName prev ≠ WrappedEnvEditor.getName rel
  | None => True
  end →
  ∃ h' s,
    Reconciler.reconcile protoMapDiff previousBaseline
      (WrappedEnvEditor.envState state) (WrappedEnvEditor.getEnvMap rel) h = Normal (h', s)
    ∧ WrappedEnvEditor.onRelease protoMapDiff rel false (h, state)
      = Normal (h', loaded rel state s).
Proof.
  intros previousBaseline Hrenamed. unfold WrappedEnvEditor.onRelease, Reconciler.reconcile.
  assert ((match WrappedEnvEditor.release state with
           | Some prev => bool_decide (WrappedEnvEditor.getName prev ≠ WrappedEnvEditor.getName rel)
           | None => true
           end) = true) as ->.
  { destruct (WrappedEnvEditor.release state); [|done]. by apply bool_decide_eq_true. }
  fold previousBaseline.
  destruct (EnvState.new (WrappedEnvEditor.getEnvMap rel) h) as [hf sf].
  destruct (WrappedEnvEditor.envState state) as [prev|]; [|by eexists _, _].
  cbn [andb fst]. destruct (bool_decide (EnvState.hasChanges prev = Some true));
    [|by eexists _, _].
  destruct (applyDiff_returns (protoMapDiff previousBaseline (EnvState.entries hf prev))
              (hf, sf)) as [[h' s] Hrun].
  exists h', s. split; [done|].
  destruct (protoMapDiff previousBaseline (EnvState.entries hf prev)) as [|op envDiff].
  - rewrite applyDiff_nil in Hrun. by injection Hrun as -> ->.
  - rewrite bool_decide_eq_true_2 by done. by rewrite Hrun.
Qed.

(** C4: the release callback loses the edits when the release that
    arrives has the name of the previous one. The session of the baseline
    [A=1] with index 0 deleted has changes and no entries. The reconciler
    of the specification then makes the entries [C=3] of the new baseline
    [A=1, C=3], and so does the callback for a release of another name;
    for a release of the same name with that baseline the callback,
    whatever the diff function, stores the fresh session, with the entries
    [A=1, C=3]: the deletion is gone. Likewise when the previous release
    itself arrives again: the reconciler keeps the entries empty, the
    callback stores [A=1]. *)
Theorem reconciler_drops_edits (protoMapDiff : Entries → Entries → Diff) :
  let previous := EnvEditor._keyChangeHandler 0 "" (EnvState.new [("A", "1")] ∅) in
  let h := (state_of previous).1 in
  let state :=
    WrappedEnvEditor.mkState (Some (WrappedEnvEditor.mkRelease "r1" [("A", "1")]))
      false false (Some (state_of previous).2) in
  EnvState.hasChanges (state_of previous).2 = Some true
  ∧ session_entries previous = Some []
  ∧ session_entries
      (Reconciler.reconcile DiffEngine.diff [("A", "1")]
         (Some (state_of previous).2) [("A", "1"); ("C", "3")] h) = Some [("C", "3")]
  ∧ editor_entries
      (WrappedEnvEditor.onRelease DiffEngine.diff
         (WrappedEnvEditor.mkRelease "r2" [("A", "1"); ("C", "3")]) false (h, state))
    = Some [("C", "3")]
  ∧ editor_entries
      (WrappedEnvEditor.onRelease protoMapDiff
         (WrappedEnvEditor.mkRelease "r1" [("A", "1"); ("C", "3")]) false (h, state))
    = Some [("A", "1"); ("C", "3")]
  ∧ session_entries
      (Reconciler.reconcile DiffEngine.diff [("A", "1")]
         (Some (state_of previous).2) [("A", "1")] h) = Some []
  ∧ editor_entries
      (WrappedEnvEditor.onRelease protoMapDiff
         (WrappedEnvEditor.mkRelease "r1" [("A", "1")]) false (h, state))
    = Some [("A", "1")].
Proof. by vm_compute. Qed.

(** ** The diff engine *)

Lemma get_Some_elem_of (key value : string) (m : Entries) :
  DiffEngine.get key m = Some value → (key, value) ∈ m.
Proof.
  induction m as [|[k v] m IH]; cbn; [done|].
  destruct (DiffEngine.get key m) as [v'|].
  - intros [= ->]. right. by apply IH.
  - case_decide as Hk; [|done]. intros [= <-]. rewrite <- Hk. by left.
Qed.

Lemma get_None (key : string) (m : Entries) : DiffEngine.get key m = None ↔ key ∉ m.*1.
Proof.
  induction m as [|[k v] m IH]; cbn.
  - split; [|done]. intros _. apply not_elem_of_nil.
  - rewrite not_elem_of_cons. destruct (DiffEngine.get key m) as [v'|].
    + split; [done|]. intros [_ Hnotin]. by apply IH in Hnotin.
    + case_decide; [|naive_solver]. subst k. split; [done|]. by intros [? _].
Qed.

Lemma elem_of_get (key value : string) (m : Entries) :
  NoDup (m.*1) → (key, value) ∈ m → DiffEngine.get key m = Some value.
Proof.
  induction m as [|[k v] m IH]; cbn.
  - intros _ Hin. by apply elem_of_nil in Hin.
  - intros [Hk Hnd]%NoDup_cons [[= -> ->]|Hin]%elem_of_cons.
    + apply get_None in Hk as ->. by rewrite decide_True.
    + by rewrite (IH Hnd Hin).
Qed.

Lemma elem_of_upsert (key value k v : string) (m : Entries) :
  NoDup (m.*1) →
  (k, v) ∈ DiffEngine.upsert key value m ↔ (k = key ∧ v = value) ∨ (k ≠ key ∧ (k, v) ∈ m).
Proof.
  induction m as [|[k' v'] m IH]; cbn.
  - intros _. rewrite list_elem_of_singleton. split.
    + intros [= -> ->]. by left.
    + intros [[-> ->]|[_ Hin]]; [done|]. by apply elem_of_nil in Hin.
  - intros [Hk Hnd]%NoDup_cons. case_decide as Hkey.
    + subst k'. rewrite !elem_of_cons. split.
      * intros [[= -> ->]|Hin]; [by left|]. right. split; [|by right].
        intros ->. apply Hk. apply list_elem_of_fmap. by exists (key, v).
      * intros [[-> ->]|[Hne [[= -> ->]|Hin]]]; [by left|done|by right].
    + rewrite !elem_of_cons, (IH Hnd). split.
      * intros [[= -> ->]|[[-> ->]|[Hne Hin]]]; [right|by left|right]; split; auto.
      * intros [[-> ->]|[Hne [[= -> ->]|Hin]]]; auto.
Qed.

Lemma upsert_keys (key value : string) (m : Entries) :
  (DiffEngine.upsert key value m).*1 = if decide (key ∈ m.*1) then m.*1 else m.*1 ++ [key].
Proof.
  induction m as [|[k v] m IH]; cbn.
  - rewrite decide_False; [done|]. apply not_elem_of_nil.
  - destruct (decide (k = key)) as [->|Hkey].
    + rewrite decide_True; [done|]. by left.
    + rewrite fmap_cons, IH. cbn. destruct (decide (key ∈ m.*1)) as [Hin|Hin].
      * rewrite decide_True; [done|]. by right.
      * rewrite decide_False; [done|]. by intros [->|?]%elem_of_cons.
Qed.

Lemma NoDup_upsert (key value : string) (m : Entries) :
  NoDup (m.*1) → NoDup ((DiffEngine.upsert key value m).*1).
Proof.
  intros Hnd. rewrite upsert_keys. case_decide as Hin; [done|].
  apply NoDup_app. split; [done|]. split; [|apply NoDup_singleton].
  intros k Hk ->%list_elem_of_singleton. done.
Qed.

Lemma elem_of_remove (key k v : string) (m : Entries) :
  (k, v) ∈ DiffEngine.remove key m ↔ k ≠ key ∧ (k, v) ∈ m.
Proof. unfold DiffEngine.remove. by rewrite list_elem_of_filter. Qed.

Lemma NoDup_remove (key : string) (m : Entries) :
  NoDup (m.*1) → NoDup ((DiffEngine.remove key m).*1).
Proof.
  unfold DiffEngine.remove. induction m as [|[k v] m IH]; [done|].
  rewrite fmap_cons. intros [Hk Hnd]%NoDup_cons. rewrite filter_cons.
  case_decide; [|by apply IH]. rewrite fmap_cons. apply NoDup_cons. split; [|by apply IH].
  intros ([k' v'] & Hkk & [_ Hin]%list_elem_of_filter)%list_elem_of_fmap. cbn in Hkk. subst k'.
  apply Hk. apply list_elem_of_fmap. by exists (k, v').
Qed.

Lemma last_op_app (key : string) (d1 d2 : Diff) :
  last_op key (d1 ++ d2)
  = match last_op key d2 with Some o => Some o | None => last_op key d1 end.
Proof.
  induction d1 as [|op d1 IH]; cbn.
  - by destruct (last_op key d2).
  - rewrite IH. by destruct (last_op key d2).
Qed.

Lemma last_op_Some (key : string) (d : Diff) (o : DiffOp) :
  last_op key d = Some o → o ∈ d ∧ op_key o = key.
Proof.
  induction d as [|op d IH]; cbn; [done|].
  destruct (last_op key d) as [o'|].
  - intros [= ->]. destruct IH as [? ?]; [done|]. split; [by right|done].
  - case_decide; [|done]. intros [= ->]. split; [by left|done].
Qed.

Lemma last_op_None (key : string) (d : Diff) (o : DiffOp) :
  last_op key d = None → o ∈ d → op_key o ≠ key.
Proof.
  induction d as [|op d IH]; cbn.
  - intros _ Hin. by apply elem_of_nil in Hin.
  - destruct (last_op key d) as [o'|]; [done|]. case_decide; [done|].
    intros _ [->|Hin]%elem_of_cons; [done|by apply IH].
Qed.

Lemma apply_last_op (m : Entries) (d : Diff) :
  NoDup (m.*1) →
  NoDup ((DiffEngine.apply m d).*1)
  ∧ ∀ k v, (k, v) ∈ DiffEngine.apply m d ↔
           match last_op k d with
           | None => (k, v) ∈ m
           | Some (Add _ v') => v = v'
           | Some (Remove _) => False
           end.
Proof.
  unfold DiffEngine.apply. revert m. induction d as [|op d IH]; intros m Hnd; cbn; [done|].
  assert (NoDup ((DiffEngine.step m op).*1)) as Hnd'.
  { destruct op; cbn; [by apply NoDup_upsert|by apply NoDup_remove]. }
  destruct (IH _ Hnd') as [Hres Hin]. split; [done|]. intros k v. rewrite Hin.
  destruct (last_op k d) as [o|]; [done|].
  destruct op as [key value|key]; cbn.
  - rewrite elem_of_upsert by done. case_decide; naive_solver.
  - rewrite elem_of_remove. case_decide; naive_solver.
Qed.

(** C1, as amended: for maps [A] and [B] in each of which no two pairs
    share a key, [apply A (diff A B)] holds exactly the pairs of [B] with a
    non-empty value; so its non-empty pairs are those of [B], and its keys
    are distinct again. *)
Theorem diff_round_trip (A B : Entries) :
  NoDup (A.*1) → NoDup (B.*1) →
  let result := DiffEngine.apply A (DiffEngine.diff A B) in
  (∀ e, e ∈ DiffEngine.nonEmpty result ↔ e ∈ DiffEngine.nonEmpty B)
  ∧ (∀ k v, (k, v) ∈ result ↔ (k, v) ∈ B ∧ v ≠ "")
  ∧ NoDup (result.*1).
Proof.
  intros HA HB result.
  destruct (apply_last_op A (DiffEngine.diff A B) HA) as [Hnd Hin]. fold result in Hnd, Hin.
  assert (∀ k v, (k, v) ∈ result ↔ (k, v) ∈ B ∧ v ≠ "") as Hpairs.
  { intros k v. rewrite Hin. unfold DiffEngine.diff. rewrite last_op_app.
    destruct (last_op k (omap _ A)) as [o|] eqn:Hrem.
    { apply last_op_Some in Hrem as [([k' w] & Hk' & Ho)%list_elem_of_omap Hkey].
      cbn in Ho. destruct (DiffEngine.get k' B) as [w'|] eqn:Hget.
      - destruct w'; [|done]. injection Ho as <-. cbn in Hkey. subst k'.
        split; [done|]. intros [HinB Hv]. apply (elem_of_get _ _ _ HB) in HinB. congruence.
      - injection Ho as <-. cbn in Hkey. subst k'.
        split; [done|]. intros [HinB Hv]. apply (elem_of_get _ _ _ HB) in HinB. congruence. }
    destruct (last_op k (omap _ B)) as [o|] eqn:Hadd.
    { apply last_op_Some in Hadd as [([k' w] & Hk' & Ho)%list_elem_of_omap Hkey].
      cbn in Ho. destruct (bool_decide (w ≠ "")) eqn:Hw; [|done].
      apply bool_decide_eq_true in Hw.
      destruct (negb _); [|done]. injection Ho as <-. cbn in Hkey. subst k'. split.
      - intros ->. done.
      - intros [HinB _]. apply (elem_of_get _ _ _ HB) in HinB, Hk'. congruence. }
    split.
    - intros HinA.
      assert (∃ w, DiffEngine.get k B = Some w ∧ w ≠ "") as (w & Hget & Hw).
      { destruct (DiffEngine.get k B) as [w|] eqn:Hget.
        - exists w. split; [done|]. intros ->.
          apply (last_op_None _ _ (Remove k) Hrem); [|done].
          apply list_elem_of_omap. exists (k, v). split; [done|]. cbn. by rewrite Hget.
        - destruct (last_op_None _ _ (Remove k) Hrem); [|done].
          apply list_elem_of_omap. exists (k, v). split; [done|]. cbn. by rewrite Hget. }
      destruct (decide (w = v)) as [->|Hne].
      { split; [by apply get_Some_elem_of|done]. }
      destruct (last_op_None _ _ (Add k w) Hadd); [|done].
      apply list_elem_of_omap. exists (k, w). split; [by apply get_Some_elem_of|]. cbn.
      rewrite (bool_decide_eq_true_2 (w ≠ "")) by done.
      rewrite (elem_of_get _ _ _ HA HinA).
      rewrite bool_decide_eq_false_2; [done|]. congruence.
    - intros [HinB Hv].
      destruct (decide (DiffEngine.get k A = Some v)) as [Hget|Hget]; [by apply get_Some_elem_of|].
      destruct (last_op_None _ _ (Add k v) Hadd); [|done].
      apply list_elem_of_omap. exists (k, v). split; [done|]. cbn.
      rewrite (bool_decide_eq_true_2 (v ≠ "")) by done.
      by rewrite bool_decide_eq_false_2. }
  split; [|done]. intros [k v]. unfold DiffEngine.nonEmpty.
  rewrite !list_elem_of_filter, Hpairs. cbn. tauto.
Qed.

Lemma diff_round_trip_witness :
  let A := [("A", "1"); ("B", "2"); ("D", "")] in
  let B := [("B", "2"); ("A", "9"); ("C", "3"); ("E", "")] in
  let result := DiffEngine.apply A (DiffEngine.diff A B) in
  (∀ e, e ∈ DiffEngine.nonEmpty result ↔ e ∈ DiffEngine.nonEmpty B)
  ∧ (∀ k v, (k, v) ∈ result ↔ (k, v) ∈ B ∧ v ≠ "")
  ∧ NoDup (result.*1).
Proof.
  intros A B.
  refine (diff_round_trip A B _ _).
  - apply (bool_decide_unpack _). by vm_compute.
  - apply (bool_decide_unpack _). by vm_compute.
Defined.

(** C1, as stated, fails for maps with a repeated key. With [A] = [K=1,
    K=2] and [B] = [K=2] the diff is empty, since the last pair of [A]
    with the key [K] has the value of [B], and the result keeps the pair
    [K=1], which [B] does not have. With [A] empty and [B] = [K=1, K=2]
    the diff adds [K] twice, the second overwrites the first, and the
    result lacks the pair [K=1] of [B]. *)
Lemma diff_round_trip_counterexample :
  let A := [("K", "1"); ("K", "2")] in
  let B := [("K", "2")] in
  let B' := [("K", "1"); ("K", "2")] in
  (DiffEngine.diff A B = []
   ∧ ("K", "1") ∈ DiffEngine.nonEmpty (DiffEngine.apply A (DiffEngine.diff A B))
   ∧ ("K", "1") ∉ DiffEngine.nonEmpty B)
  ∧ (DiffEngine.diff [] B' = [Add "K" "1"; Add "K" "2"]
     ∧ ("K", "1") ∈ DiffEngine.nonEmpty B'
     ∧ ("K", "1") ∉ DiffEngine.nonEmpty (DiffEngine.apply [] (DiffEngine.diff [] B'))).
Proof.
  intros A B B'. repeat split; try (by vm_compute);
    apply (bool_decide_unpack _); by vm_compute.
Qed.

(** * More properties of the editor *)

(** ** Bounds of the mutators *)



(** ** What a mutator leaves alone *)

(** X2: for an index of the backing array or the one past its end,
    [setKeyAtIndex] changes no value and [setValueAtIndex] changes no key;
    both leave every other row as it is, and the backing array keeps its
    length unless the index is the one past its end, where it grows by one
    row. *)
Theorem mutators_frame (index : nat) (key val : string) (h : Heap) (this : EnvState.t) :
  index ≤ length (EnvState._entries this) →
  let arr := EnvState._entries this in
  let byKey := EnvState._entries (state_of (EnvState.setKeyAtIndex index key (h, this))).2 in
  let byValue := EnvState._entries (state_of (EnvState.setValueAtIndex index val (h, this))).2 in
  (∀ j, j ≠ index → byKey !! j = arr !! j ∧ byValue !! j = arr !! j)
  ∧ (∀ j e, arr !! j = Some e → snd <$> byKey !! j = Some e.2 ∧ fst <$> byValue !! j = Some e.1)
  ∧ fst <$> byKey !! index = Some key
  ∧ snd <$> byValue !! index = Some val
  ∧ length byKey = (if decide (index < length arr) then length arr else S (length arr))
  ∧ length byValue = length byKey.
Proof.
  intros Hle arr byKey byValue. subst byKey byValue.
  rewrite setKeyAtIndex_eq, setValueAtIndex_eq by done. cbn.
  destruct (bool_decide (val = "") && bool_decide _); cbn; fold arr.
  all: split; [intros j Hj; by rewrite !place_lookup_ne|].
  all: split; [|rewrite !place_lookup_eq, !length_place by done; done].
  all: intros j e He; destruct (decide (j = index)) as [->|Hne];
    [rewrite !place_lookup_eq by done; cbn; by rewrite He
    |rewrite !place_lookup_ne by done; by rewrite He].
Qed.

Lemma mutators_frame_witness :
  let arr := [("A", "1"); ("B", "2")] in
  let byKey :=
    EnvState._entries
      (state_of (EnvState.setKeyAtIndex 1 "K"
                   ((EnvState.new arr ∅).1, (EnvState.new arr ∅).2))).2 in
  let byValue :=
    EnvState._entries
      (state_of (EnvState.setValueAtIndex 1 "v"
                   ((EnvState.new arr ∅).1, (EnvState.new arr ∅).2))).2 in
  fst <$> byKey !! 1 = Some "K" ∧ snd <$> byValue !! 1 = Some "v".
Proof.
  intros arr.
  assert (1 ≤ length (EnvState._entries (EnvState.new arr ∅).2)) as Hle by (vm_compute; lia).
  destruct (mutators_frame 1 "K" "v" (EnvState.new arr ∅).1 (EnvState.new arr ∅).2 Hle)
    as (_ & _ & Hk & Hv & _).
  split; [exact Hk|exact Hv].
Defined.

(** ** Key collisions *)

(** X3: [setKeyAtIndex], for an index it returns for, restores that index
    and deletes at most one other row: the one [uniqueKeyMap] holds for the
    key, whatever key that row holds now. No other index is deleted or
    restored, and [uniqueKeyMap] then holds the index for the key, and
    changes for no other key. *)
Theorem setKeyAtIndex_collision (index : nat) (key : string) (h : Heap) (this : EnvState.t) :
  index ≤ length (EnvState._entries this) →
  let before := EnvState.tracked h this in
  let σ' := state_of (EnvState.setKeyAtIndex index key (h, this)) in
  let after := EnvState.tracked σ'.1 σ'.2 in
  (∀ j, j ∈ deletedIndices after
        ↔ (j ≠ index ∧ j ∈ deletedIndices before)
          ∨ (j ≠ index ∧ uniqueKeyMap before !! key = Some j))
  ∧ (∀ k, k ≠ key → uniqueKeyMap after !! k = uniqueKeyMap before !! k)
  ∧ (is_Some (uniqueKeyMap before !! key) → key ≠ "__proto__" →
     uniqueKeyMap after !! key = Some index)
  ∧ (uniqueKeyMap before !! key = None → uniqueKeyMap after !! key = None)
  ∧ EnvState.deletedLength σ'.2 = size (deletedIndices after).
Proof.
  intros Hle before σ' after.
  assert (after = rekey (EnvState.originalEntries (EnvState._state this))
                    (place (EnvState._entries this) index
                       (key, default "" (snd <$> EnvState._entries this !! index)))
                    index key before) as Hafter.
  { subst after σ'. rewrite setKeyAtIndex_eq by done. cbn. unfold EnvState.tracked. cbn.
    apply lookup_total_insert_eq. }
  assert (EnvState.deletedLength σ'.2 = size (deletedIndices after)) as Hsize.
  { rewrite Hafter. subst σ'. by rewrite setKeyAtIndex_eq by done. }
  clearbody after σ'. subst after.
  split; [|split; [|split; [|split; [|done]]]]; clear Hsize.
  all: unfold rekey; cbn zeta;
    cbn [uniqueKeyMap track set_changedIndices restore set_deletedIndices];
    destruct (uniqueKeyMap before !! key) as [j0|] eqn:Hkey;
    [destruct (decide (j0 ≠ index)) as [Hne|Heq];
     [|apply dec_stable in Heq; subst j0]|]; cbn.
  all: try (intros j; set_solver).
  all: try done.
  - intros k Hk. unfold obj_set. case_decide; [done|]. by rewrite lookup_insert_ne.
  - intros _ Hproto. unfold obj_set. rewrite decide_False by done. by rewrite lookup_insert_eq.
Qed.

Lemma setKeyAtIndex_collision_witness :
  let σ := EnvState.new [("A", "1"); ("B", "2")] ∅ in
  let after :=
    EnvState.tracked (state_of (EnvState.setKeyAtIndex 0 "B" (σ.1, σ.2))).1
                     (state_of (EnvState.setKeyAtIndex 0 "B" (σ.1, σ.2))).2 in
  uniqueKeyMap after !! "B" = Some 0.
Proof.
  intros σ.
  assert (0 ≤ length (EnvState._entries σ.2)) as Hle by (vm_compute; lia).
  destruct (setKeyAtIndex_collision 0 "B" σ.1 σ.2 Hle) as (_ & _ & Hkey & _).
  apply Hkey; [exists 1; by vm_compute|discriminate].
Defined.

(** ** Calling a mutator twice *)

Ltac session_fields :=
  unfold EnvState.tracked;
  cbn [EnvState._entries EnvState._state EnvState.tracking EnvState.originalEntries
       EnvState.filterText EnvState.length EnvState.deletedLength EnvState.hasChanges
       fst snd].

Lemma track_track original current index tr :
  track original current index (track original current index tr)
  = track original current index tr.
Proof.
  unfold track, set_changedIndices. cbn. f_equal.
  repeat case_decide; try destruct (entriesEqual _ _); set_solver.
Qed.

Lemma tombstone_eq original current index tr :
  tombstone original current index tr
  = mkTracking (uniqueKeyMap tr) ({[index]} ∪ deletedIndices tr)
      (if decide (index < getLength original) then {[index]} ∪ changedIndices tr
       else changedIndices tr ∖ {[index]}).
Proof.
  unfold tombstone, track, set_changedIndices, set_deletedIndices. cbn.
  destruct (decide (index ∈ {[index]} ∪ deletedIndices tr)) as [|Hnot]; [done|].
  destruct Hnot. set_solver.
Qed.

Lemma track_live_eq original current index tr :
  index ∉ deletedIndices tr →
  track original current index tr
  = mkTracking (uniqueKeyMap tr) (deletedIndices tr)
      (if entriesEqual (original !! index) (current !! index)
       then changedIndices tr ∖ {[index]} else {[index]} ∪ changedIndices tr).
Proof.
  intros Hlive. unfold track, set_changedIndices. by rewrite decide_False.
Qed.

Lemma tombstone_tombstone original current index tr :
  tombstone original current index (tombstone original current index tr)
  = tombstone original current index tr.
Proof.
  rewrite !tombstone_eq. cbn. f_equal; [set_solver|]. case_decide; set_solver.
Qed.

Lemma rekey_eq original current index key tr :
  rekey original current index key tr
  = let changed :=
      if entriesEqual (original !! index) (current !! index)
      then changedIndices tr ∖ {[index]} else {[index]} ∪ changedIndices tr in
    match uniqueKeyMap tr !! key with
    | Some j =>
        if decide (j ≠ index) then
          mkTracking (obj_set key index (uniqueKeyMap tr))
            ({[j]} ∪ deletedIndices tr ∖ {[index]})
            (if decide (j < getLength original) then {[j]} ∪ changed else changed ∖ {[j]})
        else mkTracking (uniqueKeyMap tr) (deletedIndices tr ∖ {[index]}) changed
    | None => mkTracking (uniqueKeyMap tr) (deletedIndices tr ∖ {[index]}) changed
    end.
Proof.
  unfold rekey. cbn zeta. rewrite track_live_eq by (unfold restore; cbn; set_solver).
  cbn. destruct (uniqueKeyMap tr !! key) as [j|]; [|done].
  case_decide; [|done]. by rewrite tombstone_eq.
Qed.

Lemma rekey_rekey original current index key tr :
  rekey original current index key (rekey original current index key tr)
  = rekey original current index key tr.
Proof.
  rewrite (rekey_eq _ _ _ _ tr). cbn zeta.
  destruct (uniqueKeyMap tr !! key) as [j|] eqn:Hkey.
  - destruct (decide (j ≠ index)) as [Hne|Heq].
    + rewrite rekey_eq. cbn. unfold obj_set.
      destruct (decide (key = "__proto__")) as [Hproto|Hproto].
      * rewrite Hkey, decide_True by done.
        f_equal; [set_solver|].
        destruct (entriesEqual _ _); case_decide; set_solver.
      * rewrite lookup_insert_eq, decide_False by (intros Hii; by apply Hii).
        f_equal; [set_solver|].
        destruct (entriesEqual _ _); case_decide; set_solver.
    + rewrite rekey_eq. cbn. rewrite Hkey, decide_False by done.
      f_equal; [set_solver|]. destruct (entriesEqual _ _); set_solver.
  - rewrite rekey_eq. cbn. rewrite Hkey.
    f_equal; [set_solver|]. destruct (entriesEqual _ _); set_solver.
Qed.

(** X4: every mutator does the second time what it did the first time:
    calling [removeEntryAtIndex], [setKeyAtIndex] or [setValueAtIndex]
    again with the same arguments leaves the heap and the session exactly
    as the first call left them (and a call that threw throws again). *)
Theorem mutators_idempotent (index : nat) (key val : string) (σ : Heap * EnvState.t) :
  EnvState.removeEntryAtIndex index (EnvState.removeEntryAtIndex index σ)
  = EnvState.removeEntryAtIndex index σ
  ∧ (∀ σ', EnvState.setKeyAtIndex index key σ = Normal σ' →
           EnvState.setKeyAtIndex index key σ' = Normal σ')
  ∧ (∀ σ', EnvState.setValueAtIndex index val σ = Normal σ' →
           EnvState.setValueAtIndex index val σ' = Normal σ')
  ∧ (∀ σ', EnvState.setKeyAtIndex index key σ = Throw σ' →
           ∃ σ'', EnvState.setKeyAtIndex index key σ' = Throw σ'')
  ∧ (∀ σ', EnvState.setValueAtIndex index val σ = Throw σ' →
           EnvState.setValueAtIndex index val σ' = Throw σ').
Proof.
  destruct σ as [h this]. split; [|split; [|split; [|split]]].
  - rewrite !removeEntryAtIndex_eq. session_fields.
    rewrite !lookup_total_insert_eq, insert_insert_eq, tombstone_tombstone. done.
  - intros σ' Hrun.
    destruct (decide (index ≤ length (EnvState._entries this))) as [Hle|Hgt].
    2:{ rewrite setKeyAtIndex_throws in Hrun by lia. done. }
    rewrite setKeyAtIndex_eq in Hrun by done. injection Hrun as <-.
    rewrite setKeyAtIndex_eq.
    2:{ cbn. rewrite length_place. destruct (decide (index < length (EnvState._entries this))); lia. }
    session_fields.
    rewrite !lookup_total_insert_eq, insert_insert_eq.
    rewrite place_lookup_eq by done. cbn [fmap option_fmap option_map snd default from_option id].
    rewrite place_place by done. by rewrite rekey_rekey.
  - intros σ' Hrun.
    destruct (decide (index ≤ length (EnvState._entries this))) as [Hle|Hgt].
    2:{ rewrite setValueAtIndex_throws in Hrun by lia. done. }
    rewrite setValueAtIndex_eq in Hrun by done. injection Hrun as <-.
    destruct (bool_decide (val = "") && bool_decide _) eqn:Hempty.
    + rewrite setValueAtIndex_eq.
      2:{ cbn. rewrite length_place. destruct (decide (index < length (EnvState._entries this))); lia. }
      session_fields. rewrite place_lookup_eq by done.
      cbn [fmap option_fmap option_map fst default from_option id]. rewrite Hempty.
      rewrite !lookup_total_insert_eq, insert_insert_eq, place_place by done.
      by rewrite tombstone_tombstone.
    + rewrite setValueAtIndex_eq.
      2:{ cbn. rewrite length_place. destruct (decide (index < length (EnvState._entries this))); lia. }
      session_fields. rewrite place_lookup_eq by done.
      cbn [fmap option_fmap option_map fst default from_option id]. rewrite Hempty.
      rewrite !lookup_total_insert_eq, insert_insert_eq, place_place by done.
      by rewrite track_track.
  - intros σ' Hrun.
    destruct (decide (index ≤ length (EnvState._entries this))) as [Hle|Hgt].
    { rewrite setKeyAtIndex_eq in Hrun by done. done. }
    rewrite setKeyAtIndex_throws in Hrun by lia. injection Hrun as <-.
    rewrite setKeyAtIndex_throws by (cbn; lia). by eexists.
  - intros σ' Hrun.
    destruct (decide (index ≤ length (EnvState._entries this))) as [Hle|Hgt].
    { rewrite setValueAtIndex_eq in Hrun by done. done. }
    rewrite setValueAtIndex_throws in Hrun by lia. injection Hrun as <-.
    rewrite setValueAtIndex_throws by (cbn; lia). done.
Qed.

Lemma mutators_idempotent_witness :
  EnvState.setKeyAtIndex 0 "B"
    (state_of (EnvState.setKeyAtIndex 0 "B" (EnvState.new [("A", "1"); ("B", "2")] ∅)))
  = Normal (state_of (EnvState.setKeyAtIndex 0 "B" (EnvState.new [("A", "1"); ("B", "2")] ∅))).
Proof.
  apply (proj1 (proj2 (mutators_idempotent 0 "B" ""
                         (EnvState.new [("A", "1"); ("B", "2")] ∅)))).
  by vm_compute.
Defined.

(** ** [deletedLength] *)

Lemma deletedLength_step (m : Mutation) (σ : Heap * EnvState.t) :
  EnvState.deletedLength σ.2 = size (deletedIndices (EnvState.tracked σ.1 σ.2)) →
  let σ' := state_of (mutate m σ) in
  EnvState.deletedLength σ'.2 = size (deletedIndices (EnvState.tracked σ'.1 σ'.2)).
Proof.
  assert (∀ index σ,
            EnvState.deletedLength (EnvState.removeEntryAtIndex index σ).2
            = size (deletedIndices (EnvState.tracked (EnvState.removeEntryAtIndex index σ).1
                                                     (EnvState.removeEntryAtIndex index σ).2)))
    as Hremove.
  { intros index [h this]. rewrite removeEntryAtIndex_eq. session_fields.
    by rewrite lookup_total_insert_eq. }
  assert (∀ index key σ,
            EnvState.deletedLength (state_of (EnvState.setKeyAtIndex index key σ)).2
            = size (deletedIndices
                      (EnvState.tracked (state_of (EnvState.setKeyAtIndex index key σ)).1
                                        (state_of (EnvState.setKeyAtIndex index key σ)).2)))
    as Hkey.
  { intros index key [h this].
    destruct (decide (index ≤ length (EnvState._entries this))).
    - rewrite setKeyAtIndex_eq by done. cbn [state_of]. session_fields.
      by rewrite lookup_total_insert_eq.
    - rewrite setKeyAtIndex_throws by lia. cbn [state_of]. session_fields.
      by rewrite lookup_total_insert_eq. }
  assert (∀ index val σ,
            EnvState.deletedLength σ.2 = size (deletedIndices (EnvState.tracked σ.1 σ.2)) →
            EnvState.deletedLength (state_of (EnvState.setValueAtIndex index val σ)).2
            = size (deletedIndices
                      (EnvState.tracked (state_of (EnvState.setValueAtIndex index val σ)).1
                                        (state_of (EnvState.setValueAtIndex index val σ)).2)))
    as Hvalue.
  { intros index val [h this] Hsync.
    destruct (decide (index ≤ length (EnvState._entries this))).
    - rewrite setValueAtIndex_eq by done. cbn [state_of].
      destruct (bool_decide (val = "") && bool_decide _); session_fields;
        rewrite lookup_total_insert_eq; [done|]. exact Hsync.
    - rewrite setValueAtIndex_throws by lia. exact Hsync. }
  intros Hsync. destruct m as [index key|index val|index|diff]; unfold mutate.
  - apply Hkey.
  - by apply Hvalue.
  - apply Hremove.
  - unfold EnvState.applyDiff.
    apply (forEach_invariant
             (λ σ, EnvState.deletedLength σ.2
                   = size (deletedIndices (EnvState.tracked σ.1 σ.2)))); [|done].
    intros op σ0 Hσ0. unfold EnvState.applyOp. destruct op as [k v|k].
    + case_bool_decide; [|done].
      set (i := default _ _). pose proof (Hkey i k σ0) as Hk.
      destruct (EnvState.setKeyAtIndex i k σ0) as [σ1|σ1]; cbn [and_then state_of] in *; [|done].
      by apply Hvalue.
    + destruct (findIndex _ _); cbn [state_of]; [apply Hremove|done].
Qed.

(** X5: in every state a session built by the constructor reaches through
    [setKeyAtIndex], [setValueAtIndex], [removeEntryAtIndex] and [applyDiff]
    (also the state an exception leaves), [deletedLength] is the number of
    deleted indices. *)
Theorem deletedLength_in_sync (baseline : Entries) (h : Heap) (ms : list Mutation) :
  let σ := state_of (mutations ms (EnvState.new baseline h)) in
  EnvState.deletedLength σ.2 = size (deletedIndices (EnvState.tracked σ.1 σ.2)).
Proof.
  apply (forEach_invariant
           (λ σ, EnvState.deletedLength σ.2
                 = size (deletedIndices (EnvState.tracked σ.1 σ.2)))).
  - intros m σ. apply deletedLength_step.
  - unfold EnvState.tracked. cbn. by rewrite lookup_total_insert_eq.
Qed.

(** ** [applyDiff] never throws *)

(** X6: [applyDiff] returns for every diff and every session, though
    [setKeyAtIndex] and [setValueAtIndex] can throw: it only hands them an
    index of the backing array or the one just past its end. It keeps the
    session's state object, and the backing array does not shrink. *)
Theorem applyDiff_never_throws (diff : Diff) (σ : Heap * EnvState.t) :
  ∃ σ', EnvState.applyDiff diff σ = Normal σ'
        ∧ EnvState._state σ'.2 = EnvState._state σ.2
        ∧ length (EnvState._entries σ.2) ≤ length (EnvState._entries σ'.2).
Proof.
  destruct (applyDiff_returns diff σ) as [σ' Hrun]. exists σ'. split; [done|].
  pose proof (forEach_invariant
                (λ σ0, EnvState._state σ0.2 = EnvState._state σ.2
                       ∧ length (EnvState._entries σ.2) ≤ length (EnvState._entries σ0.2))
                EnvState.applyOp diff σ) as Hinv.
  unfold EnvState.applyDiff in Hrun. rewrite Hrun in Hinv. apply Hinv; [|done].
  clear. intros op [h this] [Hstate Hlen]. cbn [snd] in *.
  destruct (applyOp_returns op (h, this)) as [σ1 Hop]. rewrite Hop. cbn [state_of].
  unfold EnvState.applyOp in Hop. destruct op as [k v|k].
  - case_bool_decide; [|injection Hop as <-; done].
    pose proof (findIndex_bound (λ e : Entry, bool_decide (e.1 = k)) (EnvState._entries this)) as Hle.
    cbn [snd op_key] in Hop. unfold toArray in Hop.
    rewrite setKeyAtIndex_eq in Hop by done. cbn [and_then] in Hop.
    rewrite setValueAtIndex_eq in Hop.
    2:{ cbn. rewrite length_place. case_decide; lia. }
    injection Hop as <-. cbn.
    destruct (bool_decide (v = "") && bool_decide _); cbn;
      (split; [done|]); rewrite !length_place; repeat case_decide; lia.
  - cbn [snd op_key] in Hop. destruct (findIndex _ _).
    + injection Hop as <-. by rewrite removeEntryAtIndex_eq.
    + by injection Hop as <-.
Qed.

(** ** The events of the editor *)

Lemma rows_indices (fz : string → string → bool) (σ : Heap * EnvState.t) :
  (EnvEditorView.rows (EnvEditorView.render fz σ)).*1
  = EnvState.map fz (λ _ index, index) σ.1 σ.2.
Proof.
  unfold EnvEditorView.render. cbn [EnvEditorView.rows].
  rewrite !map_visible, fmap_app, <- list_fmap_compose. done.
Qed.

Lemma offered_in_range (fz : string → string → bool) (σ : Heap * EnvState.t) (index : nat) :
  EnvState.length σ.2 ≤ length (EnvState._entries σ.2) →
  index ∈ (EnvEditorView.rows (EnvEditorView.render fz σ)).*1 →
  index ≤ length (EnvState._entries σ.2).
Proof.
  intros Hlen. rewrite rows_indices, map_indices.
  intros [(_ & e & He & _)| ->]; [|done]. apply lookup_lt_Some in He. lia.
Qed.

Lemma length_in_range_applyOp op σ :
  EnvState.length σ.2 ≤ length (EnvState._entries σ.2) →
  EnvState.length (state_of (EnvState.applyOp op σ)).2
  ≤ length (EnvState._entries (state_of (EnvState.applyOp op σ)).2).
Proof.
  destruct σ as [h this]. intros Hlen. unfold EnvState.applyOp. destruct op as [k v|k].
  - case_bool_decide; [|done].
    pose proof (findIndex_bound (λ e : Entry, bool_decide (e.1 = k)) (EnvState._entries this)) as Hle.
    cbn [snd op_key]. unfold toArray.
    rewrite setKeyAtIndex_eq by done. cbn [and_then].
    rewrite setValueAtIndex_eq.
    2:{ cbn. rewrite length_place. case_decide; lia. }
    cbn. by destruct (bool_decide (v = "") && bool_decide _).
  - cbn [snd op_key]. destruct (findIndex _ _); [|done].
    cbn [state_of]. by rewrite removeEntryAtIndex_eq.
Qed.

Lemma shown_length_in_range (fz : string → string → bool) (σ : Heap * EnvState.t) :
  EnvEditorView.shown fz σ → EnvState.length σ.2 ≤ length (EnvState._entries σ.2).
Proof.
  induction 1 as [baseline h|σ diff σ' _ IH Hrun|σ e σ' _ IH Hoffered Hrun].
  - cbn. apply getLength_le.
  - pose proof (forEach_invariant
                  (λ σ0, EnvState.length σ0.2 ≤ length (EnvState._entries σ0.2))
                  EnvState.applyOp diff σ) as Hinv.
    unfold EnvState.applyDiff in Hrun. rewrite Hrun in Hinv. apply Hinv; [|done].
    intros op σ0. apply length_in_range_applyOp.
  - destruct σ as [h this]. destruct e as [index key|index val|text];
      cbn [EnvEditorView.step EnvEditorView.offered] in *.
    + pose proof (offered_in_range fz _ index IH Hoffered) as Hle.
      unfold EnvEditor._keyChangeHandler in Hrun. case_bool_decide.
      * unfold EnvState.dup, EnvState.construct, EnvState._setDeletedLength in Hrun.
        rewrite setKeyAtIndex_eq in Hrun by done. by injection Hrun as <-.
      * injection Hrun as <-.
        unfold EnvState.dup, EnvState.construct, EnvState._setDeletedLength.
        rewrite removeEntryAtIndex_eq. cbn. apply getLength_le.
    + pose proof (offered_in_range fz _ index IH Hoffered) as Hle.
      unfold EnvEditor._valueChangeHandler, EnvState.dup, EnvState.construct,
        EnvState._setDeletedLength in Hrun.
      rewrite setValueAtIndex_eq in Hrun by done. injection Hrun as <-.
      cbn. by destruct (bool_decide (val = "") && bool_decide _).
    + injection Hrun as <-. cbn. apply getLength_le.
Qed.

(** X8: no handler of the editor throws on a session the editor can show:
    for the session of a baseline, the one [applyDiff] made of it and
    every session the events made of these, a key change and a value
    change at an index [render] gave a row (the new-entry row too) and a
    change of the search text all return; and the index of the new-entry
    row never lies beyond the end of the backing array. *)
Theorem editor_never_throws (fz : string → string → bool)
    (σ : Heap * EnvState.t) (e : EnvEditorView.Event) :
  EnvEditorView.shown fz σ → EnvEditorView.offered fz σ e →
  (∃ σ', EnvEditorView.step e σ = Normal σ')
  ∧ EnvState.length σ.2 ≤ length (EnvState._entries σ.2).
Proof.
  intros Hshown Hoffered. pose proof (shown_length_in_range fz σ Hshown) as Hlen.
  split; [|done]. destruct σ as [h this].
  destruct e as [index key|index val|text]; cbn [EnvEditorView.step EnvEditorView.offered] in *.
  - pose proof (offered_in_range fz _ index Hlen Hoffered) as Hle.
    unfold EnvEditor._keyChangeHandler. case_bool_decide; [|by eexists].
    unfold EnvState.dup, EnvState.construct, EnvState._setDeletedLength.
    rewrite setKeyAtIndex_eq by done. by eexists.
  - pose proof (offered_in_range fz _ index Hlen Hoffered) as Hle.
    unfold EnvEditor._valueChangeHandler, EnvState.dup, EnvState.construct,
      EnvState._setDeletedLength.
    rewrite setValueAtIndex_eq by done. by eexists.
  - by eexists.
Qed.

Lemma editor_never_throws_witness :
  (∃ σ', EnvEditorView.step (EnvEditorView.KeyChange 1 "B") (EnvState.new [("A", "1")] ∅)
         = Normal σ')
  ∧ EnvState.length (EnvState.new [("A", "1")] ∅).2
    ≤ length (EnvState._entries (EnvState.new [("A", "1")] ∅).2).
Proof.
  apply (editor_never_throws (λ _ _, true)).
  - apply EnvEditorView.shown_new.
  - cbn [EnvEditorView.offered]. rewrite rows_indices.
    assert (EnvState.map (λ _ _, true) (λ (_ : Entry) (index : nat), index)
              (EnvState.new [("A", "1")] ∅).1 (EnvState.new [("A", "1")] ∅).2 = [0; 1]) as ->
      by (by vm_compute).
    apply (bool_decide_unpack _). by vm_compute.
Defined.

(** X9: what the "Review Changes" button does after an event. After a
    change of the search text it never submits, whatever is in
    [changedIndices], which the search leaves alone; after a key change or
    a value change that returned it submits exactly when [changedIndices]
    is not empty. *)
Theorem review_button (fz : string → string → bool)
    (e : EnvEditorView.Event) (σ σ' : Heap * EnvState.t) :
  EnvEditorView.step e σ = Normal σ' →
  match e with
  | EnvEditorView.Search _ =>
      EnvEditorView.submits (EnvEditorView.render fz σ') = false
      ∧ EnvState.tracked σ'.1 σ'.2 = EnvState.tracked σ.1 σ.2
      ∧ EnvState.entries σ'.1 σ'.2 = EnvState.entries σ.1 σ.2
  | _ =>
      EnvEditorView.submits (EnvEditorView.render fz σ')
      = bool_decide (changedIndices (EnvState.tracked σ'.1 σ'.2) ≠ ∅)
  end.
Proof.
  assert (∀ tr, bool_decide (truthy tr = Some true) = bool_decide (changedIndices tr ≠ ∅))
    as Htruthy.
  { intros tr. apply bool_decide_ext, truthy_true. }
  destruct σ as [h this]. intros Hrun.
  destruct e as [index key|index val|text]; cbn [EnvEditorView.step] in Hrun.
  - unfold EnvEditor._keyChangeHandler in Hrun. case_bool_decide.
    + unfold EnvState.dup, EnvState.construct, EnvState._setDeletedLength in Hrun.
      destruct (decide (index ≤ length (EnvState._entries this))) as [Hle|Hgt].
      2:{ rewrite setKeyAtIndex_throws in Hrun by (cbn; lia). done. }
      rewrite setKeyAtIndex_eq in Hrun by done. injection Hrun as <-.
      unfold EnvEditorView.render. cbn [EnvEditorView.submits]. session_fields.
      by rewrite lookup_total_insert_eq.
    + injection Hrun as <-.
      unfold EnvState.dup, EnvState.construct, EnvState._setDeletedLength.
      rewrite removeEntryAtIndex_eq.
      unfold EnvEditorView.render. cbn [EnvEditorView.submits]. session_fields.
      by rewrite lookup_total_insert_eq.
  - unfold EnvEditor._valueChangeHandler, EnvState.dup, EnvState.construct,
      EnvState._setDeletedLength in Hrun.
    destruct (decide (index ≤ length (EnvState._entries this))) as [Hle|Hgt].
    2:{ rewrite setValueAtIndex_throws in Hrun by (cbn; lia). done. }
    rewrite setValueAtIndex_eq in Hrun by done. injection Hrun as <-.
    unfold EnvEditorView.render. cbn [EnvEditorView.submits].
    destruct (bool_decide (val = "") && bool_decide _); session_fields;
      by rewrite lookup_total_insert_eq.
  - injection Hrun as <-. done.
Qed.

Lemma review_button_witness :
  EnvEditorView.submits
    (EnvEditorView.render (λ _ _, true)
       (state_of (EnvEditorView.step (EnvEditorView.ValueChange 0 "9")
                    (EnvState.new [("A", "1")] ∅))))
  = bool_decide
      (changedIndices
         (EnvState.tracked
            (state_of (EnvEditorView.step (EnvEditorView.ValueChange 0 "9")
                         (EnvState.new [("A", "1")] ∅))).1
            (state_of (EnvEditorView.step (EnvEditorView.ValueChange 0 "9")
                         (EnvState.new [("A", "1")] ∅))).2) ≠ ∅).
Proof.
  apply (review_button (λ _ _, true) (EnvEditorView.ValueChange 0 "9")
           (EnvState.new [("A", "1")] ∅)).
  by vm_compute.
Defined.

(** ** The constructor's [uniqueKeyMap] *)

Lemma reduce_keys (l : Entries) (i : nat) (acc : gmap string nat) (k : string) (n : nat) :
  reduce_from (λ (m : gmap string nat) (e : Entry) index, obj_set e.1 index m) i l acc !! k = Some n
  ↔ (k ≠ "__proto__"
     ∧ ∃ j v, n = i + j ∧ l !! j = Some (k, v)
              ∧ ∀ j' e, j < j' → l !! j' = Some e → e.1 ≠ k)
    ∨ (acc !! k = Some n ∧ ∀ e, e ∈ l → e.1 = k → k = "__proto__").
Proof.
  revert i acc. induction l as [|[k0 v0] l IH]; intros i acc; cbn [reduce_from].
  - split; [intros Hacc; right; split; [done|]; by intros e ?%elem_of_nil|].
    intros [(_ & j & v & _ & Hj & _)|[Hacc _]]; done.
  - rewrite IH. cbn [fst]. split.
    + intros [(Hproto & j & v & -> & Hj & Hlast)|[Hacc Hnone]].
      * left. split; [done|]. exists (S j), v. split; [lia|]. split; [done|].
        intros [|j'] e Hlt He; [lia|]. apply (Hlast j'); [lia|done].
      * unfold obj_set in Hacc. destruct (decide (k0 = "__proto__")) as [->|Hk0].
        { right. split; [done|]. intros e [->|He]%elem_of_cons Hk; [by cbn in Hk|by apply (Hnone e)]. }
        destruct (decide (k0 = k)) as [->|Hne].
        -- rewrite lookup_insert_eq in Hacc. injection Hacc as <-.
           left. split; [done|]. exists 0, v0. split; [lia|]. split; [done|].
           intros [|j'] e Hlt He Hk; [lia|]. cbn in He.
           apply Hk0. apply (Hnone e); [|done]. apply list_elem_of_lookup. eauto.
        -- rewrite lookup_insert_ne in Hacc by done. right. split; [done|].
           intros e [->|He]%elem_of_cons Hk; [by cbn in Hk|by apply (Hnone e)].
    + intros [(Hproto & j & v & -> & Hj & Hlast)|[Hacc Hnone]].
      * destruct j as [|j].
        -- cbn in Hj. injection Hj as -> ->. right. split.
           ++ unfold obj_set. rewrite decide_False by done.
              rewrite lookup_insert_eq. f_equal. lia.
           ++ intros e He Hk. apply list_elem_of_lookup in He as [j' He].
              destruct (Hlast (S j') e); [lia|done|done].
        -- left. split; [done|]. exists j, v. split; [lia|]. split; [done|].
           intros j' e Hlt He. apply (Hlast (S j')); [lia|done].
      * right. split.
        -- unfold obj_set. case_decide as Hk0; [done|].
           rewrite lookup_insert_ne; [done|]. intros ->.
           apply Hk0, (Hnone (k, v0)); [by left|done].
        -- intros e He Hk. apply (Hnone e); [by right|done].
Qed.

(** X10: the [uniqueKeyMap] the constructor builds holds, for every key
    of the baseline but ["__proto__"], the index of the last pair with
    that key, and nothing else. *)
Theorem constructor_uniqueKeyMap (baseline : Entries) (h : Heap) (k : string) (n : nat) :
  let σ := EnvState.new baseline h in
  uniqueKeyMap (EnvState.tracked σ.1 σ.2) !! k = Some n
  ↔ k ≠ "__proto__"
    ∧ (∃ v, baseline !! n = Some (k, v))
    ∧ ∀ j e, n < j → baseline !! j = Some e → e.1 ≠ k.
Proof.
  cbn zeta. unfold EnvState.tracked. cbn. rewrite lookup_total_insert_eq. cbn.
  unfold reduce, toArray. rewrite reduce_keys. split.
  - intros [(Hproto & j & v & -> & Hj & Hlast)|[Hempty _]]; [|done].
    split; [done|]. split; [by exists v|done].
  - intros (Hproto & [v Hn] & Hlast). left. split; [done|]. by exists n, v.
Qed.

(** ** The text fields *)

Lemma EnvInput_step (e : EnvInput.Event) (ps : EnvInput.EnvInputProps * EnvInput.EnvInputState)
    (b : bool) :
  EnvInput.multiline ps.2 = b →
  (EnvInput.expanded ps.2 = true → b = true) →
  EnvInput.multiline (EnvInput.step e ps).2 = b
  ∧ (EnvInput.expanded (EnvInput.step e ps).2 = true → b = true).
Proof.
  destruct ps as [props [expanded multiline]]. cbn. intros <- Hexp.
  destruct e; cbn; unfold EnvInput._inputFocusHandler, EnvInput._textareaBlurHandler; cbn.
  - by destruct multiline.
  - by destruct expanded.
  - done.
Qed.

Lemma EnvInput_run (es : list EnvInput.Event) (props : EnvInput.EnvInputProps) :
  let ps := EnvInput.run es props in
  EnvInput.multiline ps.2 = EnvInput.has_newline (EnvInput.value props)
  ∧ (EnvInput.expanded ps.2 = true → EnvInput.has_newline (EnvInput.value props) = true).
Proof.
  cbn zeta. unfold EnvInput.run.
  set (b := EnvInput.has_newline (EnvInput.value props)).
  assert (EnvInput.multiline (props, EnvInput.constructor props).2 = b
          ∧ (EnvInput.expanded (props, EnvInput.constructor props).2 = true → b = true))
    as Hinit by done.
  revert Hinit. generalize (props, EnvInput.constructor props).
  induction es as [|e es IH]; intros ps [Hm He]; [done|].
  cbn [fold_left]. apply IH. by apply EnvInput_step.
Qed.

(** X11: whether a text field can become a textarea is settled when the
    field is built: after any focus, blur and change of props, [multiline]
    is still what the first value gave, the field renders a textarea only
    if that first value held a line break, and whatever it renders shows
    the value of the props it has now. *)
Theorem EnvInput_multiline_fixed (es : list EnvInput.Event) (props : EnvInput.EnvInputProps) :
  let ps := EnvInput.run es props in
  EnvInput.multiline ps.2 = EnvInput.has_newline (EnvInput.value props)
  ∧ match EnvInput.render ps.1 ps.2 with
    | EnvInput.textarea value =>
        EnvInput.has_newline (EnvInput.value props) = true ∧ value = EnvInput.value ps.1
    | EnvInput.input _ _ value => value = EnvInput.value ps.1
    end.
Proof.
  cbn zeta. destruct (EnvInput_run es props) as [Hm He]. split; [done|].
  unfold EnvInput.render. destruct (EnvInput.expanded _); [|done]. split; [by apply He|done].
Qed.

(** ** The states of the wrapped editor *)

Lemma onRelease_loaded (protoMapDiff : Entries → Entries → Diff)
    (rel : WrappedEnvEditor.Release) (σ : Heap * WrappedEnvEditor.WrappedState) :
  ∃ h' s, WrappedEnvEditor.onRelease protoMapDiff rel false σ = Normal (h', loaded rel σ.2 s).
Proof.
  destruct σ as [h state]. unfold WrappedEnvEditor.onRelease, loaded.
  cbv beta iota zeta. cbn [snd].
  destruct (WrappedEnvEditor.envState state) as [prev|];
    [|destruct (EnvState.new _ h) as [h' s]; by eauto].
  destruct (_ && _); [|destruct (EnvState.new _ h) as [h' s]; by eauto].
  destruct (bool_decide _); [|destruct (EnvState.new _ h) as [h' s]; by eauto].
  match goal with
  | |- context [EnvState.applyDiff ?d ?s] =>
      destruct (applyDiff_returns d s) as [[h' s'] ->]
  end.
  by eauto.
Qed.

(** What the render method needs of the state. *)
Lemma ready_step (protoMapDiff : Entries → Entries → Diff) (e : WrappedEnvEditorView.Event)
    (σ : Heap * WrappedEnvEditor.WrappedState) :
  let ready (state : WrappedEnvEditor.WrappedState) :=
    WrappedEnvEditor.isLoading state = false →
    is_Some (WrappedEnvEditor.release state)
    ∧ (WrappedEnvEditor.isDeploying state = true → is_Some (WrappedEnvEditor.envState state)) in
  ready σ.2 →
  ∃ σ', WrappedEnvEditorView.step protoMapDiff e σ = Normal σ' ∧ ready σ'.2.
Proof.
  cbn zeta. destruct σ as [h [release isLoading isDeploying envState]]. cbn. intros Hready.
  destruct e as [|rel [|]| | | |]; cbn; try (eexists; split; [done|]; cbn).
  - done.
  - done.
  - destruct (onRelease_loaded protoMapDiff rel
                (h, WrappedEnvEditor.mkState release isLoading isDeploying envState))
      as (h' & s & Heq).
    cbn in Heq. exists (h', loaded rel (WrappedEnvEditor.mkState release isLoading isDeploying envState) s).
    split; [done|]. cbn. by eauto.
  - intros Hl. destruct (Hready Hl) as [Hrel _]. by eauto.
  - intros Hl. destruct (Hready Hl) as [Hrel _]. by eauto.
  - intros Hl. destruct (Hready Hl) as [Hrel _]. by eauto.
  - intros Hl. destruct (Hready Hl) as [Hrel _]. by eauto.
Qed.

(** X12: the wrapped editor can always render. Whatever [_getData], the
    release stream and the handlers of the children did since the
    component was built, none of them threw, [render] does not end in
    'Unexpected lack of release!', and while the deployment dialog is
    shown the state holds the session [_buildNewRelease] asks for. *)
Theorem wrapped_render_total (protoMapDiff : Entries → Entries → Diff)
    (es : list WrappedEnvEditorView.Event) (h : Heap) :
  let c := WrappedEnvEditorView.run protoMapDiff es h in
  (∃ σ, c = Normal σ)
  ∧ match WrappedEnvEditorView.render (state_of c) with
    | Some (_, WrappedEnvEditorView.CreateDeployment) =>
        is_Some (WrappedEnvEditor.envState (state_of c).2)
    | Some (_, WrappedEnvEditorView.Editor s) =>
        WrappedEnvEditor.isLoading (state_of c).2 = false
        ∧ match WrappedEnvEditor.envState (state_of c).2 with
          | Some s' => s = s'
          | None => ∃ rel, WrappedEnvEditor.release (state_of c).2 = Some rel
                           ∧ s = (EnvState.new (WrappedEnvEditor.getEnvMap rel) (state_of c).1).2
          end
    | Some (_, WrappedEnvEditorView.Loading) => WrappedEnvEditor.isLoading (state_of c).2 = true
    | None => False
    end.
Proof.
  cbn zeta. unfold WrappedEnvEditorView.run.
  set (ready := λ state : WrappedEnvEditor.WrappedState,
    WrappedEnvEditor.isLoading state = false →
    is_Some (WrappedEnvEditor.release state)
    ∧ (WrappedEnvEditor.isDeploying state = true → is_Some (WrappedEnvEditor.envState state))).
  assert (∀ σ, ready σ.2 →
            ∃ σ', forEach (WrappedEnvEditorView.step protoMapDiff) es σ = Normal σ' ∧ ready σ'.2)
    as Hrun.
  { induction es as [|e es IH]; intros σ Hready; cbn [forEach]; [by eauto|].
    destruct (ready_step protoMapDiff e σ Hready) as (σ1 & -> & Hready1). by apply IH. }
  destruct (Hrun (h, WrappedEnvEditorView.constructor)) as ([h' state] & -> & Hready); [done|].
  split; [by eauto|]. cbn [state_of fst snd] in *. unfold ready in Hready.
  destruct state as [release [|] isDeploying envState]; cbn in *; [done|].
  destruct (Hready eq_refl) as [[rel ->] Henv].
  destruct isDeploying; [by apply Henv|].
  destruct envState as [s|]; cbn; [done|]. split; [done|]. by exists rel.
Qed.

(** ** Sessions of separate constructor calls *)

Lemma frame_removeEntryAtIndex (l : loc) (t : Tracking) state index σ :
  l ≠ EnvState.tracking state →
  σ.1 !!! l = t ∧ EnvState._state σ.2 = state →
  (EnvState.removeEntryAtIndex index σ).1 !!! l = t
  ∧ EnvState._state (EnvState.removeEntryAtIndex index σ).2 = state.
Proof.
  destruct σ as [h this]. cbn. intros Hl [Ht <-].
  rewrite removeEntryAtIndex_eq. cbn. by rewrite lookup_total_insert_ne.
Qed.

Lemma frame_setKeyAtIndex (l : loc) (t : Tracking) state index key σ :
  l ≠ EnvState.tracking state →
  σ.1 !!! l = t ∧ EnvState._state σ.2 = state →
  (state_of (EnvState.setKeyAtIndex index key σ)).1 !!! l = t
  ∧ EnvState._state (state_of (EnvState.setKeyAtIndex index key σ)).2 = state.
Proof.
  destruct σ as [h this]. cbn. intros Hl [Ht <-].
  destruct (decide (index ≤ length (EnvState._entries this))).
  - rewrite setKeyAtIndex_eq by done. cbn. by rewrite lookup_total_insert_ne.
  - rewrite setKeyAtIndex_throws by lia. cbn. by rewrite lookup_total_insert_ne.
Qed.

Lemma frame_setValueAtIndex (l : loc) (t : Tracking) state index val σ :
  l ≠ EnvState.tracking state →
  σ.1 !!! l = t ∧ EnvState._state σ.2 = state →
  (state_of (EnvState.setValueAtIndex index val σ)).1 !!! l = t
  ∧ EnvState._state (state_of (EnvState.setValueAtIndex index val σ)).2 = state.
Proof.
  destruct σ as [h this]. cbn. intros Hl [Ht <-].
  destruct (decide (index ≤ length (EnvState._entries this))).
  - rewrite setValueAtIndex_eq by done. cbn.
    destruct (_ && _); cbn; by rewrite lookup_total_insert_ne.
  - by rewrite setValueAtIndex_throws by lia.
Qed.

Lemma frame_applyOp (l : loc) (t : Tracking) state op σ :
  l ≠ EnvState.tracking state →
  σ.1 !!! l = t ∧ EnvState._state σ.2 = state →
  (state_of (EnvState.applyOp op σ)).1 !!! l = t
  ∧ EnvState._state (state_of (EnvState.applyOp op σ)).2 = state.
Proof.
  intros Hl Hσ. unfold EnvState.applyOp. destruct op as [key value|key].
  - case_bool_decide; [|done].
    set (index := default _ _).
    pose proof (frame_setKeyAtIndex l t state index key σ Hl Hσ) as Hk.
    destruct (EnvState.setKeyAtIndex index key σ) as [σ'|σ']; cbn in *; [|done].
    by apply frame_setValueAtIndex.
  - destruct (findIndex _ _); cbn; [|done]. by apply frame_removeEntryAtIndex.
Qed.

Lemma frame_mutations (l : loc) (t : Tracking) state ms σ :
  l ≠ EnvState.tracking state →
  σ.1 !!! l = t ∧ EnvState._state σ.2 = state →
  (state_of (mutations ms σ)).1 !!! l = t
  ∧ EnvState._state (state_of (mutations ms σ)).2 = state.
Proof.
  intros Hl.
  apply (forEach_invariant (λ σ, σ.1 !!! l = t ∧ EnvState._state σ.2 = state)).
  intros m σ' Hσ'. destruct m; unfold mutate.
  - by apply frame_setKeyAtIndex.
  - by apply frame_setValueAtIndex.
  - by apply frame_removeEntryAtIndex.
  - apply (forEach_invariant (λ σ, σ.1 !!! l = t ∧ EnvState._state σ.2 = state)); [|done].
    intros op σ''. by apply frame_applyOp.
Qed.

Lemma views_of_tracked (h h' : Heap) (this : EnvState.t) :
  EnvState.tracked h' this = EnvState.tracked h this →
  EnvState.entries h' this = EnvState.entries h this
  ∧ (∀ fz (T : Type) (fn : Entry → nat → T),
       EnvState.map fz fn h' this = EnvState.map fz fn h this)
  ∧ (∀ (T : Type) (fn : Entry → nat → T),
       EnvState.mapDeleted fn h' this = EnvState.mapDeleted fn h this).
Proof.
  intros Htr.
  unfold EnvState.entries, EnvState.map, EnvState.mapDeleted, EnvState.isDeleted.
  by rewrite Htr.
Qed.

(** X13: two sessions built by two calls of the constructor share
    nothing. Whatever sequence of mutations runs on one of them, throwing
    or not, the tracking objects of the other and everything it shows
    ([entries], [map], [mapDeleted]) stay as they were. *)
Theorem sessions_independent (b1 b2 : Entries) (ms : list Mutation) (h : Heap) :
  let s1 := EnvState.new b1 h in
  let s2 := EnvState.new b2 s1.1 in
  let after1 := (state_of (mutations ms (s2.1, s1.2))).1 in
  let after2 := (state_of (mutations ms s2)).1 in
  (EnvState.tracked after1 s2.2 = EnvState.tracked s2.1 s2.2
   ∧ EnvState.entries after1 s2.2 = EnvState.entries s2.1 s2.2
   ∧ (∀ fz (T : Type) (fn : Entry → nat → T), EnvState.map fz fn after1 s2.2 = EnvState.map fz fn s2.1 s2.2)
   ∧ (∀ (T : Type) (fn : Entry → nat → T), EnvState.mapDeleted fn after1 s2.2 = EnvState.mapDeleted fn s2.1 s2.2))
  ∧ (EnvState.tracked after2 s1.2 = EnvState.tracked s1.1 s1.2
     ∧ EnvState.entries after2 s1.2 = EnvState.entries s1.1 s1.2
     ∧ (∀ fz (T : Type) (fn : Entry → nat → T), EnvState.map fz fn after2 s1.2 = EnvState.map fz fn s1.1 s1.2)
     ∧ (∀ (T : Type) (fn : Entry → nat → T), EnvState.mapDeleted fn after2 s1.2 = EnvState.mapDeleted fn s1.1 s1.2)).
Proof.
  cbn zeta.
  set (s1 := EnvState.new b1 h). set (s2 := EnvState.new b2 s1.1).
  assert (EnvState.tracking (EnvState._state s2.2) ≠ EnvState.tracking (EnvState._state s1.2))
    as Hne.
  { cbn. intros Heq. pose proof (is_fresh (dom s1.1)) as Hfresh. cbn in Hfresh.
    rewrite Heq in Hfresh. apply Hfresh. rewrite dom_insert_L. set_solver. }
  assert (s2.1 !!! EnvState.tracking (EnvState._state s1.2)
          = s1.1 !!! EnvState.tracking (EnvState._state s1.2)) as Hkeep.
  { cbn. rewrite lookup_total_insert_ne; [done|]. intros Heq. by apply Hne. }
  split.
  - assert (EnvState.tracked (state_of (mutations ms (s2.1, s1.2))).1 s2.2
            = EnvState.tracked s2.1 s2.2) as Htr.
    { unfold EnvState.tracked.
      by apply (frame_mutations _ _ (EnvState._state s1.2) ms (s2.1, s1.2)). }
    split; [done|]. by apply views_of_tracked.
  - assert (EnvState.tracked (state_of (mutations ms s2)).1 s1.2
            = EnvState.tracked s1.1 s1.2) as Htr.
    { unfold EnvState.tracked. rewrite <-Hkeep.
      apply (frame_mutations _ _ (EnvState._state s2.2) ms s2); [|done].
      intros Heq. by apply Hne. }
    split; [done|]. by apply views_of_tracked.
Qed.

(** ** What a diff leaves of a baseline *)

Lemma keyed_index (arr : Entries) (k : string) :
  NoDup (arr.*1) →
  let index := default (length arr) (findIndex (λ e : Entry, bool_decide (e.1 = k)) arr) in
  index ≤ length arr
  ∧ (∀ j v, arr !! j = Some (k, v) → j = index)
  ∧ (∀ e, arr !! index = Some e → e.1 = k).
Proof.
  intros Hnodup. cbn zeta. split; [apply findIndex_bound|].
  destruct (findIndex _ arr) as [n|] eqn:Hfind; cbn.
  - apply findIndex_Some in Hfind as [([k0 v0] & Hn & Hk%bool_decide_eq_true) _].
    cbn in Hk. subst k0. split.
    + intros j v Hj. apply (NoDup_lookup (arr.*1) j n k Hnodup).
      * by rewrite list_lookup_fmap, Hj.
      * by rewrite list_lookup_fmap, Hn.
    + intros e He. by replace e with (k, v0) by congruence.
  - split.
    + intros j v Hj. pose proof (proj1 (findIndex_None _ _) Hfind (k, v)) as Hno.
      rewrite bool_decide_eq_false in Hno. destruct Hno; [|done].
      apply list_elem_of_lookup. eauto.
    + intros e He. apply lookup_lt_Some in He. lia.
Qed.

Lemma keyed_place (arr : Entries) (index : nat) (k v : string) :
  NoDup (arr.*1) → index ≤ length arr →
  (∀ j v', arr !! j = Some (k, v') → j = index) →
  (∀ e, arr !! index = Some e → e.1 = k) →
  NoDup ((place arr index (k, v)).*1).
Proof.
  intros Hnodup Hle Hone Hat. unfold place. case_decide as Hlt.
  - rewrite list_fmap_insert. cbn. rewrite list_insert_id; [done|].
    destruct (lookup_lt_is_Some_2 arr index Hlt) as [e He].
    rewrite list_lookup_fmap, He. cbn. f_equal. by apply Hat.
  - rewrite fmap_app. cbn. apply NoDup_app. split; [done|]. split; [|apply NoDup_singleton].
    intros k' ([k0 v0] & -> & [j Hj]%list_elem_of_lookup)%list_elem_of_fmap Hk.
    apply list_elem_of_singleton in Hk. cbn in Hk. subst k0.
    apply Hone in Hj as Hidx. apply lookup_lt_Some in Hj. lia.
Qed.

Lemma applyOp_add_shape (k v : string) (h : Heap) (this : EnvState.t) :
  v ≠ "" →
  let arr := EnvState._entries this in
  let index := default (length arr) (findIndex (λ e : Entry, bool_decide (e.1 = k)) arr) in
  let tr := rekey (EnvState.originalEntries (EnvState._state this))
                  (place arr index (k, default "" (snd <$> arr !! index))) index k
                  (EnvState.tracked h this) in
  ∃ σ', EnvState.applyOp (Add k v) (h, this) = Normal σ'
        ∧ EnvState._entries σ'.2 = place arr index (k, v)
        ∧ uniqueKeyMap (EnvState.tracked σ'.1 σ'.2) = uniqueKeyMap tr
        ∧ deletedIndices (EnvState.tracked σ'.1 σ'.2) = deletedIndices tr.
Proof.
  intros Hv. cbn zeta.
  pose proof (findIndex_bound (λ e : Entry, bool_decide (e.1 = k)) (EnvState._entries this)) as Hle.
  unfold EnvState.applyOp. cbn [op_key snd]. rewrite bool_decide_true by done.
  unfold toArray. set (index := default _ _) in *.
  rewrite setKeyAtIndex_eq by done. cbn [and_then].
  assert (index ≤ length (place (EnvState._entries this) index
                            (k, default "" (snd <$> EnvState._entries this !! index)))) as Hle'.
  { rewrite length_place. case_decide; lia. }
  rewrite setValueAtIndex_eq by done.
  rewrite (bool_decide_false (v = "")) by done. cbn [andb].
  session_fields. eexists. split; [reflexivity|]. session_fields.
  rewrite place_lookup_eq by done. cbn [fmap option_fmap option_map default fst].
  rewrite place_place by done. rewrite !lookup_total_insert_eq.
  split; [done|]. by split.
Qed.

Lemma applyOp_keyed (op : DiffOp) (σ : Heap * EnvState.t) :
  skipped op = false → keyed σ →
  ∃ σ', EnvState.applyOp op σ = Normal σ' ∧ keyed σ'
        ∧ ∀ e, live σ' e ↔ op_leaves op (live σ) e.
Proof.
  destruct σ as [h this]. intros Hskip [Hnodup Hkeys]. cbn [fst snd] in *.
  destruct (keyed_index (EnvState._entries this) (op_key op) Hnodup) as (Hle & Hone & Hat).
  destruct op as [k v|k]; cbn [op_key] in *.
  - apply bool_decide_eq_false in Hskip.
    destruct (applyOp_add_shape k v h this Hskip) as ([h' this'] & -> & Harr & Hukm & Hdel).
    cbn [fst snd] in *. set (index := default _ _) in *.
    set (arr := EnvState._entries this) in *.
    rewrite rekey_eq in Hukm, Hdel. cbn zeta in Hukm, Hdel.
    assert (uniqueKeyMap (EnvState.tracked h' this') = uniqueKeyMap (EnvState.tracked h this)
            ∧ deletedIndices (EnvState.tracked h' this')
              = deletedIndices (EnvState.tracked h this) ∖ {[index]}) as [Hukm' Hdel'].
    { destruct (uniqueKeyMap (EnvState.tracked h this) !! k) as [j|] eqn:Hj; [|done].
      destruct (Hkeys k j Hj) as [v' Hrow]. apply Hone in Hrow.
      by rewrite decide_False in Hukm, Hdel by (intros Hne; by apply Hne). }
    clear Hukm Hdel. eexists. split; [done|]. split; [split|].
    + cbn [fst snd]. rewrite Harr. by apply keyed_place.
    + cbn [fst snd]. rewrite Hukm', Harr. intros k' j Hj.
      destruct (Hkeys k' j Hj) as [v' Hrow]. destruct (decide (j = index)) as [->|Hne].
      * apply Hat in Hrow as Hk. cbn in Hk. subst k'. exists v. by apply place_lookup_eq.
      * exists v'. by rewrite place_lookup_ne.
    + intros [k' v']. unfold live, op_leaves. cbn [fst snd op_key]. rewrite Harr, Hdel'.
      destruct (decide (k = k')) as [<-|Hk].
      * split.
        -- intros (j & Hj & _). destruct (decide (j = index)) as [->|Hne].
           ++ rewrite place_lookup_eq in Hj by done. congruence.
           ++ rewrite place_lookup_ne in Hj by done. apply Hone in Hj. by destruct Hne.
        -- intros ->. exists index. split; [by apply place_lookup_eq|set_solver].
      * split.
        -- intros (j & Hj & Hlive). destruct (decide (j = index)) as [->|Hne].
           ++ rewrite place_lookup_eq in Hj by done. congruence.
           ++ rewrite place_lookup_ne in Hj by done. exists j. split; [done|set_solver].
        -- intros (j & Hj & Hlive). assert (j ≠ index) as Hne.
           { intros ->. apply Hat in Hj. by destruct Hk. }
           exists j. rewrite place_lookup_ne by done. split; [done|set_solver].
  - unfold EnvState.applyOp. cbn [op_key snd]. unfold toArray.
    destruct (findIndex _ _) as [n|] eqn:Hfind; cbn [default] in *.
    + rewrite removeEntryAtIndex_eq. cbn zeta. eexists. split; [done|].
      unfold keyed, live. session_fields. rewrite lookup_total_insert_eq, tombstone_eq.
      cbn [uniqueKeyMap deletedIndices]. split; [by split|].
      intros [k' v']. unfold op_leaves. cbn [op_key fst snd].
      destruct (decide (k = k')) as [<-|Hk].
      * split; [|done]. intros (j & Hj & Hlive). apply Hone in Hj. set_solver.
      * split.
        -- intros (j & Hj & Hlive). exists j. split; [done|set_solver].
        -- intros (j & Hj & Hlive). exists j. split; [done|].
           assert (j ≠ n); [|set_solver]. intros ->.
           destruct (lookup_lt_is_Some_2 (EnvState._entries this) n) as [e He].
           { apply lookup_lt_Some in Hj. lia. }
           apply Hat in He as Hk'. rewrite Hj in He. injection He as <-. by destruct Hk.
    + eexists. split; [done|]. split; [by split|].
      intros [k' v']. unfold op_leaves, live. cbn [op_key fst snd].
      destruct (decide (k = k')) as [<-|Hk]; [|done].
      split; [|done]. intros (j & Hj & _). apply Hone in Hj as Hn.
      apply lookup_lt_Some in Hj. lia.
Qed.

Lemma applyDiff_keyed (d : Diff) (σ : Heap * EnvState.t) :
  Forall (λ op, skipped op = false) d → keyed σ →
  ∃ σ', EnvState.applyDiff d σ = Normal σ' ∧ keyed σ'
        ∧ ∀ e, live σ' e ↔ match last_op e.1 d with
                            | None => live σ e
                            | Some (Add _ value) => e.2 = value
                            | Some (Remove _) => False
                            end.
Proof.
  unfold EnvState.applyDiff. revert σ.
  induction d as [|op d IH]; intros σ Hd Hσ; cbn [forEach last_op]; [by eauto|].
  apply Forall_cons in Hd as [Hop Hd].
  destruct (applyOp_keyed op σ Hop Hσ) as (σ1 & -> & Hσ1 & Hlive1). cbn [and_then].
  destruct (IH σ1 Hd Hσ1) as (σ' & -> & Hσ' & Hlive). exists σ'. split; [done|]. split; [done|].
  intros e. rewrite Hlive. destruct (last_op e.1 d) as [[]|]; [done|done|].
  rewrite Hlive1. unfold op_leaves. case_decide; [by destruct op|done].
Qed.

Lemma keyed_new (baseline : Entries) (h : Heap) :
  NoDup (baseline.*1) → keyed (EnvState.new baseline h).
Proof.
  intros Hnodup. split; [done|]. unfold EnvState.tracked. cbn.
  rewrite lookup_total_insert_eq. cbn. intros k j Hj.
  unfold reduce, toArray in Hj. apply reduce_keys in Hj as [(_ & i & v & -> & Hi & _)|[Hj _]];
    [by exists v|done].
Qed.

Lemma elem_of_entries (h : Heap) (this : EnvState.t) (e : Entry) :
  e ∈ EnvState.entries h this ↔ e.1 ≠ "" ∧ e.2 ≠ "" ∧ live (h, this) e.
Proof.
  unfold EnvState.entries, filter_index, toArray, live, EnvState.isDeleted.
  rewrite elem_of_filter_from. cbn [fst snd]. split.
  - intros (j & Hj & Hp). rewrite !andb_true_iff, negb_true_iff in Hp.
    destruct Hp as [[Hdel Hk%bool_decide_eq_true] Hv%bool_decide_eq_true].
    apply bool_decide_eq_false in Hdel. by eauto.
  - intros (Hk & Hv & j & Hj & Hdel). exists j. split; [done|].
    rewrite !andb_true_iff, negb_true_iff, !bool_decide_eq_true, bool_decide_eq_false. done.
Qed.

(** X14: what [applyDiff] makes of a fresh session. On the session of a
    baseline whose keys are distinct, [applyDiff] returns, and the pairs
    of the rows that are not deleted afterwards are decided key by key by
    the last operation on the key that is not skipped: an [Add] leaves
    exactly the pair with its value, a [Remove] leaves none, and a key
    without an operation keeps its pair of the baseline. [entries] is
    these pairs without those of an empty key or value. *)
Theorem applyDiff_last_op (baseline : Entries) (diff : Diff) (h : Heap) :
  NoDup (baseline.*1) →
  ∃ σ', EnvState.applyDiff diff (EnvState.new baseline h) = Normal σ'
        ∧ (∀ e, live σ' e ↔ left_by baseline (filter (λ op, skipped op = false) diff) e)
        ∧ (∀ e, e ∈ EnvState.entries σ'.1 σ'.2
                ↔ e.1 ≠ "" ∧ e.2 ≠ ""
                  ∧ left_by baseline (filter (λ op, skipped op = false) diff) e)
        ∧ NoDup ((EnvState._entries σ'.2).*1).
Proof.
  intros Hnodup. rewrite applyDiff_skips.
  destruct (applyDiff_keyed (filter (λ op, skipped op = false) diff) (EnvState.new baseline h))
    as (σ' & -> & [Hkeys _] & Hlive).
  { apply Forall_forall. by intros op [Hop _]%list_elem_of_filter. }
  { by apply keyed_new. }
  assert (∀ e, live σ' e ↔ left_by baseline (filter (λ op, skipped op = false) diff) e) as Hleft.
  { intros e. rewrite Hlive. unfold left_by.
    destruct (last_op e.1 _) as [[]|]; [done|done|].
    unfold live, EnvState.tracked. cbn. rewrite lookup_total_insert_eq. cbn.
    rewrite list_elem_of_lookup. split; [intros (j & Hj & _); by eauto|].
    intros [j Hj]. exists j. split; [done|set_solver]. }
  exists σ'. split; [done|]. split; [done|]. split; [|done].
  intros e. destruct σ' as [h' this']. rewrite elem_of_entries. cbn [fst snd].
  by rewrite Hleft.
Qed.

Lemma applyDiff_last_op_witness :
  let baseline := [("A", "1"); ("B", "2")] in
  let diff := [Add "A" "9"; Remove "B"; Add "C" ""; Add "D" "4"] in
  NoDup (baseline.*1)
  ∧ ∃ σ', EnvState.applyDiff diff (EnvState.new baseline ∅) = Normal σ'
          ∧ (∀ e, live σ' e ↔ left_by baseline (filter (λ op, skipped op = false) diff) e)
          ∧ (∀ e, e ∈ EnvState.entries σ'.1 σ'.2
                  ↔ e.1 ≠ "" ∧ e.2 ≠ ""
                    ∧ left_by baseline (filter (λ op, skipped op = false) diff) e)
          ∧ NoDup ((EnvState._entries σ'.2).*1).
Proof.
  cbn zeta.
  assert (NoDup ([("A", "1"); ("B", "2")] : Entries).*1) as Hnodup.
  { apply (bool_decide_unpack _). by vm_compute. }
  split; [exact Hnodup|].
  exact (applyDiff_last_op [("A", "1"); ("B", "2")]
           [Add "A" "9"; Remove "B"; Add "C" ""; Add "D" "4"] ∅ Hnodup).
Defined.
